(** * route-mining: the responder pipeline of [lib/responder.py]

    A shallow embedding of the address-processing pipeline: the stage
    contract ([Responder]), the validation stage, the carrier-route stage and
    the pipeline that chains them.  Python lists and [Address] instances are
    objects of a store, so that in-place updates and aliasing are visible;
    exceptions are results of the computation and leave the store as it was
    when they were raised.  [ReportGeneratorResponder], which writes the
    batch to the file store of the web application, is not part of the
    development. *)

From Stdlib Require Import ZArith String Ascii List Lia DecimalString.
From stdpp Require Import base option list strings gmap.

Local Open Scope string_scope.
Local Open Scope list_scope.

Set Warnings "-register-all".

(** ** Python values

    The values that [response.json()] produces and that the address fields
    hold.  JSON numbers are taken in their integer case.  A [PDict] lists its
    bindings in insertion order, with distinct keys. *)

Inductive pyval : Type :=
| PNone
| PBool (b : bool)
| PInt (n : Z)
| PStr (s : string)
| PList (xs : list pyval)
| PDict (kvs : list (string * pyval)).

(** The exceptions the modelled code can raise.  [ApiError] stands for
    whatever the injected client raises (transport failure, a body that is
    not JSON); [BuilderError] for a failing [AddressBuilder.build];
    [SystemError] for a reference to no object, which no Python program can
    hold. *)

Inductive exn : Type :=
| KeyError (k : pyval)
| TypeError
| IndexError
| UnboundLocalError (name : string)
| NotImplementedError
| BuilderError
| ApiError (msg : string)
| SystemError.

Inductive Result (A : Type) : Type :=
| Ok (a : A)
| Raise (e : exn).

Arguments Ok {A} a.
Arguments Raise {A} e.

(** [bool(v)]: the truth value Python gives to [v] in an [if]. *)
Definition truthy (v : pyval) : bool :=
  match v with
  | PNone => false
  | PBool b => b
  | PInt n => negb (n =? 0)%Z
  | PStr s => negb (String.eqb s "")
  | PList xs => match xs with [] => false | _ => true end
  | PDict kvs => match kvs with [] => false | _ => true end
  end.

Fixpoint dict_get (kvs : list (string * pyval)) (k : string) : option pyval :=
  match kvs with
  | [] => None
  | (k', v) :: rest => if String.eqb k' k then Some v else dict_get rest k
  end.

(** [v[k]] for a string key [k]. *)
Definition getitem (v : pyval) (k : string) : Result pyval :=
  match v with
  | PDict kvs =>
      match dict_get kvs k with
      | Some x => Ok x
      | None => Raise (KeyError (PStr k))
      end
  | _ => Raise TypeError
  end.

(** [len(v)]. *)
Definition py_len (v : pyval) : Result nat :=
  match v with
  | PList xs => Ok (length xs)
  | PStr s => Ok (String.length s)
  | PDict kvs => Ok (length kvs)
  | _ => Raise TypeError
  end.

(** [v[0]]. *)
Definition getitem0 (v : pyval) : Result pyval :=
  match v with
  | PList (x :: _) => Ok x
  | PList [] => Raise IndexError
  | PStr (String c _) => Ok (PStr (String c EmptyString))
  | PStr EmptyString => Raise IndexError
  | PDict _ => Raise (KeyError (PInt 0))
  | _ => Raise TypeError
  end.

(** The items a [for] loop over [v] visits: the elements of a list, the
    characters of a string, the keys of a dict. *)
Definition py_iter (v : pyval) : Result (list pyval) :=
  match v with
  | PList xs => Ok xs
  | PStr s => Ok (map (fun c => PStr (String c EmptyString)) (list_ascii_of_string s))
  | PDict kvs => Ok (map (fun kv => PStr (fst kv)) kvs)
  | _ => Raise TypeError
  end.

(** [x == y] on values: numbers and booleans compare by value, lists
    element by element, dicts binding by binding whatever their order. *)
Fixpoint py_eqb (x y : pyval) {struct x} : bool :=
  match x, y with
  | PNone, PNone => true
  | PBool a, PBool b => Bool.eqb a b
  | PBool a, PInt b => (Z.b2z a =? b)%Z
  | PInt a, PBool b => (a =? Z.b2z b)%Z
  | PInt a, PInt b => (a =? b)%Z
  | PStr a, PStr b => String.eqb a b
  | PList xs, PList ys =>
      (fix go (xs ys : list pyval) : bool :=
         match xs, ys with
         | [], [] => true
         | x' :: xs', y' :: ys' => py_eqb x' y' && go xs' ys'
         | _, _ => false
         end) xs ys
  | PDict kvs, PDict kvs' =>
      (length kvs =? length kvs')%nat &&
      (fix go (kvs : list (string * pyval)) : bool :=
         match kvs with
         | [] => true
         | (k, v) :: rest =>
             match dict_get kvs' k with
             | Some v' => py_eqb v v' && go rest
             | None => false
             end
         end) kvs
  | _, _ => false
  end.

(** The part of the run-time the sources leave open: how [str] prints a
    list or a dict, and which field values [AddressBuilder.build] counts as
    missing. *)
Class Env : Type := {
  container_repr : pyval -> string;
  field_missing : pyval -> bool
}.

(** [str(v)], which is what an f-string field [{v}] inserts. *)
Definition py_str `{Env} (v : pyval) : string :=
  match v with
  | PNone => "None"
  | PBool true => "True"
  | PBool false => "False"
  | PInt n => NilEmpty.string_of_int (Z.to_int n)
  | PStr s => s
  | PList _ | PDict _ => container_repr v
  end.

(** ** The store

    [Address] instances and Python lists are objects, named by their index
    in the store; an object is never freed, and a new one takes the next
    index.  [log] records, in order, the requests made to the external
    services. *)

Abbreviation loc := nat.
Abbreviation lref := nat.

Module Address.

(** Modelled from the spec: the class [Address] of [lib/address.py] is not
    among the sources.  Its attributes are the ones [lib/responder.py]
    reads and writes; equality is over the core fields only, and
    [carrier_route] is excluded from it. *)
Record t : Type := mk {
  street_number : pyval;
  street_name : pyval;
  apt_number : pyval;
  city : pyval;
  state : pyval;
  zip : pyval;
  carrier_route : pyval
}.

Definition core (a : t) : list pyval :=
  [street_number a; street_name a; apt_number a; city a; state a; zip a].

(** Modelled from the spec: [Address.__eq__], field by field over the core
    fields. *)
Definition eqb (a b : t) : bool :=
  py_eqb (street_number a) (street_number b)
  && py_eqb (street_name a) (street_name b)
  && py_eqb (apt_number a) (apt_number b)
  && py_eqb (city a) (city b)
  && py_eqb (state a) (state b)
  && py_eqb (zip a) (zip b).

Definition set_carrier_route (a : t) (v : pyval) : t :=
  mk (street_number a) (street_name a) (apt_number a) (city a) (state a)
     (zip a) v.

End Address.

Inductive verb : Type := GET | POST.

Record Request : Type := {
  req_verb : verb;
  req_url : string;
  req_headers : list (string * string);
  req_fields : list (string * string)
}.

Record Store : Type := {
  addrs : list Address.t;
  lists : list (list loc);
  log : list Request
}.

(** A computation runs on a store and either returns a value or raises; the
    store it leaves is returned in both cases. *)
Definition M (A : Type) : Type := Store -> Result A * Store.

Definition ret {A} (a : A) : M A := fun s => (Ok a, s).

Definition raise {A} (e : exn) : M A := fun s => (Raise e, s).

Definition bind {A B} (m : M A) (k : A -> M B) : M B :=
  fun s =>
    match m s with
    | (Ok a, s') => k a s'
    | (Raise e, s') => (Raise e, s')
    end.

Definition lift {A} (r : Result A) : M A := fun s => (r, s).

Declare Scope py_scope.
Delimit Scope py_scope with py.
Notation "x <- m ;; k" := (bind m (fun x => k))
  (at level 100, m at next level, right associativity) : py_scope.
Notation "m ;;; k" := (bind m (fun _ => k))
  (at level 100, right associativity) : py_scope.
Local Open Scope py_scope.

(** A [for] loop whose body is [body]: the items in order, stopping at the
    first one that raises. *)
Fixpoint for_each {A} (items : list A) (body : A -> M unit) : M unit :=
  match items with
  | [] => ret tt
  | x :: rest => body x ;;; for_each rest body
  end.

(** Reading and writing objects. *)
Definition load (a : loc) : M Address.t :=
  fun s =>
    match addrs s !! a with
    | Some o => (Ok o, s)
    | None => (Raise SystemError, s)
    end.

Definition new_address (o : Address.t) : M loc :=
  fun s =>
    (Ok (length (addrs s)),
     {| addrs := addrs s ++ [o]; lists := lists s; log := log s |}).

Definition setattr_carrier_route (a : loc) (v : pyval) : M unit :=
  fun s =>
    match addrs s !! a with
    | Some o =>
        (Ok tt,
         {| addrs := <[a := Address.set_carrier_route o v]> (addrs s);
            lists := lists s; log := log s |})
    | None => (Raise SystemError, s)
    end.

Definition list_items (l : lref) : M (list loc) :=
  fun s =>
    match lists s !! l with
    | Some xs => (Ok xs, s)
    | None => (Raise SystemError, s)
    end.

(** [len(addresses)] *)
Definition list_len (l : lref) : M nat :=
  xs <- list_items l ;; ret (length xs).

(** [addresses[idx]] *)
Definition list_getitem (l : lref) (idx : nat) : M loc :=
  xs <- list_items l ;;
  match xs !! idx with
  | Some a => ret a
  | None => raise IndexError
  end.

(** [addresses[idx] = a] *)
Definition list_setitem (l : lref) (idx : nat) (a : loc) : M unit :=
  fun s =>
    match lists s !! l with
    | Some xs =>
        if (idx <? length xs)%nat then
          (Ok tt,
           {| addrs := addrs s; lists := <[l := <[idx := a]> xs]> (lists s);
              log := log s |})
        else (Raise IndexError, s)
    | None => (Raise SystemError, s)
    end.

(** ** The injected API client

    [api_client.get(url, headers=, params=).json()] and
    [api_client.post(url, headers=, data=).json()]: what the service
    answers may depend on every request made so far. *)
Record ApiClient : Type := {
  client_get : list Request -> Request -> Result pyval;
  client_post : list Request -> Request -> Result pyval
}.

Definition call (answer : list Request -> Request -> Result pyval)
    (r : Request) : M pyval :=
  fun s =>
    (answer (log s) r,
     {| addrs := addrs s; lists := lists s; log := log s ++ [r] |}).

Definition get_request (url : string)
    (headers params : list (string * string)) : Request :=
  {| req_verb := GET; req_url := url; req_headers := headers;
     req_fields := params |}.

Definition post_request (url : string)
    (headers data : list (string * string)) : Request :=
  {| req_verb := POST; req_url := url; req_headers := headers;
     req_fields := data |}.

Definition api_get (c : ApiClient) (url : string)
    (headers params : list (string * string)) : M pyval :=
  call (client_get c) (get_request url headers params).

Definition api_post (c : ApiClient) (url : string)
    (headers data : list (string * string)) : M pyval :=
  call (client_post c) (post_request url headers data).

(** The entry of list [l] at index [idx]: the object it refers to and the
    fields that object has. *)
Definition entry (s : Store) (l : lref) (idx : nat) : option (loc * Address.t) :=
  match lists s !! l with
  | Some batch =>
      match batch !! idx with
      | Some a =>
          match addrs s !! a with
          | Some o => Some (a, o)
          | None => None
          end
      | None => None
      end
  | None => None
  end.

(** ** Constants of the module *)

Definition CARRIER_ROUTE_ENDPOINT : string :=
  "https://tools.usps.com/tools/app/ziplookup/zipByAddress".

Definition ADDRESS_LOOKUP : string :=
  "https://geocode.arcgis.com/arcgis/rest/services/World/GeocodeServer/findAddressCandidates".

Definition HEADERS : list (string * string) :=
  [("user-agent",
    "Mozilla/5.0 AppleWebKit/537.36 (KHTML, like Gecko) Chrome/97.0.0.71 Safari/537.0")].

Module AddressBuilder.

(** Modelled from the spec: the class [AddressBuilder] of [lib/address.py]
    is not among the sources.  An incremental builder, one setter per core
    field; [build] fails if a required core field is missing (the
    apartment number is optional) and otherwise creates an [Address] whose
    carrier route is not set. *)
Record t : Type := mk {
  b_street_number : pyval;
  b_street_name : pyval;
  b_apt_number : pyval;
  b_city : pyval;
  b_state : pyval;
  b_zip : pyval
}.

Definition init : t := mk PNone PNone PNone PNone PNone PNone.

Definition street_number (v : pyval) (b : t) : t :=
  mk v (b_street_name b) (b_apt_number b) (b_city b) (b_state b) (b_zip b).
Definition street_name (v : pyval) (b : t) : t :=
  mk (b_street_number b) v (b_apt_number b) (b_city b) (b_state b) (b_zip b).
Definition apt_number (v : pyval) (b : t) : t :=
  mk (b_street_number b) (b_street_name b) v (b_city b) (b_state b) (b_zip b).
Definition city (v : pyval) (b : t) : t :=
  mk (b_street_number b) (b_street_name b) (b_apt_number b) v (b_state b) (b_zip b).
Definition state (v : pyval) (b : t) : t :=
  mk (b_street_number b) (b_street_name b) (b_apt_number b) (b_city b) v (b_zip b).
Definition zip (v : pyval) (b : t) : t :=
  mk (b_street_number b) (b_street_name b) (b_apt_number b) (b_city b) (b_state b) v.

(** Modelled from the spec: a required core field is missing. *)
Definition incomplete `{Env} (b : t) : bool :=
  field_missing (b_street_number b) || field_missing (b_street_name b)
  || field_missing (b_city b) || field_missing (b_state b)
  || field_missing (b_zip b).

(** Modelled from the spec: the address a complete builder creates. *)
Definition built (b : t) : Address.t :=
  Address.mk (b_street_number b) (b_street_name b) (b_apt_number b)
    (b_city b) (b_state b) (b_zip b) PNone.

(** Modelled from the spec: [build()], which fails or creates the object. *)
Definition build `{Env} (b : t) : M loc :=
  if incomplete b then raise BuilderError else new_address (built b).

End AddressBuilder.

(** ** The stage contract

    [Responder.respond(addresses)]: a stage is given a list object and
    returns one.  The base class raises [NotImplementedError]. *)
Definition Responder : Type := lref -> M lref.

Definition Responder_respond : Responder :=
  fun _ => raise NotImplementedError.

Module AddressValidationResponder.
Section stage.
Context `{Env}.
Variable api_client : ApiClient.

(** The candidate of [validate], as an address under construction. *)
Definition candidate (address_json : pyval) : Result AddressBuilder.t :=
  match getitem address_json "attributes" with
  | Raise e => Raise e
  | Ok address_attributes =>
  match getitem address_attributes "AddNum" with
  | Raise e => Raise e
  | Ok street_number =>
  match getitem address_attributes "StName" with
  | Raise e => Raise e
  | Ok st_name =>
  match getitem address_attributes "StType" with
  | Raise e => Raise e
  | Ok st_type =>
  let street_name := PStr (py_str st_name +:+ " " +:+ py_str st_type) in
  match getitem address_attributes "SubAddr" with
  | Raise e => Raise e
  | Ok apt_number =>
  match getitem address_attributes "City" with
  | Raise e => Raise e
  | Ok city =>
  match getitem address_attributes "RegionAbbr" with
  | Raise e => Raise e
  | Ok state =>
  match getitem address_attributes "Postal" with
  | Raise e => Raise e
  | Ok zip =>
      Ok (AddressBuilder.zip zip
         (AddressBuilder.state state
         (AddressBuilder.city city
         (AddressBuilder.apt_number apt_number
         (AddressBuilder.street_name street_name
         (AddressBuilder.street_number street_number
            AddressBuilder.init))))))
  end end end end end end end end.

Definition validate (address : loc) (address_json : pyval) : M (bool * loc) :=
  if negb (truthy address_json) then ret (true, address)
  else
    builder <- lift (candidate address_json) ;;
    received_address <- AddressBuilder.build builder ;;
    mine <- load address ;;
    theirs <- load received_address ;;
    ret (Address.eqb mine theirs, received_address).

(** The query string of the lookup. *)
Definition single_line (a : Address.t) : string :=
  if truthy (Address.apt_number a) then
    py_str (Address.street_number a) +:+ " " +:+ py_str (Address.street_name a)
    +:+ " apt #" +:+ py_str (Address.apt_number a)
    +:+ " " +:+ py_str (Address.city a) +:+ " " +:+ py_str (Address.state a)
    +:+ " " +:+ py_str (Address.zip a)
  else
    py_str (Address.street_number a) +:+ " " +:+ py_str (Address.street_name a)
    +:+ " " +:+ py_str (Address.city a) +:+ " " +:+ py_str (Address.state a)
    +:+ " " +:+ py_str (Address.zip a).

Definition params (a : Address.t) : list (string * string) :=
  [("SingleLine", single_line a); ("f", "json"); ("outFields", "*");
   ("countryCode", "US")].

(** The body of the loop of [respond], for one index. *)
Definition respond_step (addresses : lref) (idx : nat) : M unit :=
  address <- list_getitem addresses idx ;;
  a <- load address ;;
  resp_json <- api_get api_client ADDRESS_LOOKUP HEADERS (params a) ;;
  candidates <- lift (getitem resp_json "candidates") ;;
  n <- lift (py_len candidates) ;;
  address_json <-
    (if (n =? 0)%nat then ret (PStr "") else lift (getitem0 candidates)) ;;
  vn <- validate address address_json ;;
  if negb (fst vn) then list_setitem addresses idx (snd vn) else ret tt.

Definition respond : Responder :=
  fun addresses =>
    n <- list_len addresses ;;
    for_each (seq 0 n) (respond_step addresses) ;;;
    ret addresses.

End stage.
End AddressValidationResponder.

Module CarrierRouteRetreiverResponder.
Section stage.
Context `{Env}.
Variable api_client : ApiClient.

Definition data (a : Address.t) : list (string * string) :=
  [("address1",
    py_str (Address.street_number a) +:+ " " +:+ py_str (Address.street_name a));
   ("address2", py_str (Address.apt_number a));
   ("city", py_str (Address.city a));
   ("state", py_str (Address.state a));
   ("urbanCode", "");
   ("zip", py_str (Address.zip a))].

(** The inner loop: the first route that is truthy is stored and the loop
    is left. *)
Fixpoint scan (address : loc) (address_list : list pyval) : M unit :=
  match address_list with
  | [] => ret tt
  | address_json :: rest =>
      route <- lift (getitem address_json "carrierRoute") ;;
      if truthy route then setattr_carrier_route address route
      else scan address rest
  end.

(** The body of the outer loop, for one address. *)
Definition respond_step (address : loc) : M unit :=
  a <- load address ;;
  resp_json <- api_post api_client CARRIER_ROUTE_ENDPOINT HEADERS (data a) ;;
  address_list <- lift (getitem resp_json "addressList") ;;
  items <- lift (py_iter address_list) ;;
  scan address items.

Definition respond : Responder :=
  fun addresses =>
    batch <- list_items addresses ;;
    for_each batch respond_step ;;;
    ret addresses.

End stage.
End CarrierRouteRetreiverResponder.

Module ResponderPipeline.

Record t : Type := mk { responders : list Responder }.

Definition init : t := mk [].

Definition add_first (self : t) (responder : Responder) : t :=
  mk (responder :: responders self).

Definition add_last (self : t) (responder : Responder) : t :=
  mk (responders self ++ [responder]).

(** The loop of [respond]; [response] is the local variable, [None] while
    it is not bound.  Every stage is called with [addresses]. *)
Fixpoint respond_loop (rs : list Responder) (addresses : lref)
    (response : option lref) : M (option lref) :=
  match rs with
  | [] => ret response
  | responder :: rest =>
      r <- responder addresses ;;
      respond_loop rest addresses (Some r)
  end.

Definition respond (self : t) : Responder :=
  fun addresses =>
    response <- respond_loop (responders self) addresses None ;;
    match response with
    | Some r => ret r
    | None => raise (UnboundLocalError "response")
    end.

End ResponderPipeline.

(** ** Vocabulary of the statements *)

(** The request the validation stage makes for an address with fields [o],
    and the one the carrier-route stage makes. *)
Definition lookup_request `{Env} (o : Address.t) : Request :=
  get_request ADDRESS_LOOKUP HEADERS (AddressValidationResponder.params o).

Definition route_request `{Env} (o : Address.t) : Request :=
  post_request CARRIER_ROUTE_ENDPOINT HEADERS
    (CarrierRouteRetreiverResponder.data o).

(** The store after the lookup of an address with fields [o] whose first
    candidate was built into an address that is then dropped. *)
Definition looked_up `{Env} (s : Store) (o : Address.t) (b : AddressBuilder.t) : Store :=
  {| addrs := addrs s ++ [AddressBuilder.built b]; lists := lists s;
     log := log s ++ [lookup_request o] |}.

(** An entry of the carrier-route response that has a route and whose route
    is empty (not truthy). *)
Definition no_route (x : pyval) : Prop :=
  exists v, getitem x "carrierRoute" = Ok v /\ truthy v = false.

(** What the specification of [respond] describes: the batch goes into the first
    stage and each stage's output into the next one; the last output is the
    result. *)
Fixpoint threaded (stages : list Responder) (batch : lref) : M lref :=
  match stages with
  | [] => ret batch
  | stage :: rest => out <- stage batch ;; threaded rest out
  end.

(** What [respond] does instead: every stage is given [batch]; [last] is
    what the stage before returned, and the last of them is the result. *)
Fixpoint each_on_input (stages : list Responder) (batch last : lref) : M lref :=
  match stages with
  | [] => ret last
  | stage :: rest => out <- stage batch ;; each_on_input rest batch out
  end.

(** A stage that returns the list object it was given. *)
Definition returns_its_input (stage : Responder) : Prop :=
  forall l s l' s', stage l s = (Ok l', s') -> l' = l.

(** [list(xs)]: a new list object. *)
Definition new_list (xs : list loc) : M lref :=
  fun s =>
    (Ok (length (lists s)),
     {| addrs := addrs s; lists := lists s ++ [xs]; log := log s |}).

(** Three stages to try a pipeline with: one returns a copy of the batch,
    [return list(addresses)]; one returns the batch it is given; one leaves
    a mark in the log, a request to [name], and returns the batch. *)
Definition copying : Responder :=
  fun addresses => batch <- list_items addresses ;; new_list batch.

Definition passing : Responder :=
  fun addresses => ret addresses.

Definition marking (name : string) : Responder :=
  fun addresses =>
    call (fun _ _ => Ok PNone) (get_request name [] []) ;;;
    ret addresses.

(** Index by index, [batch'] holds the object [batch] holds, or an object
    created between [s] and [s'] in its place; the two have one length. *)
Definition aligned (s s' : Store) (batch batch' : list loc) : Prop :=
  length (addrs s) <= length (addrs s') /\
  length batch' = length batch /\
  forall i a a',
    batch !! i = Some a -> batch' !! i = Some a' ->
    a' = a \/ length (addrs s) <= a' < length (addrs s').

(** The two lookup stages, and what is built from them: one of them, or a
    pipeline of at least one of them. *)
Inductive lookup_stage `{Env} : Responder -> Prop :=
| validation_stage c : lookup_stage (AddressValidationResponder.respond c)
| carrier_route_stage c : lookup_stage (CarrierRouteRetreiverResponder.respond c).

Inductive batch_stage `{Env} : Responder -> Prop :=
| single_stage stage : lookup_stage stage -> batch_stage stage
| pipeline_stage stages :
    stages <> [] -> Forall lookup_stage stages ->
    batch_stage (ResponderPipeline.respond (ResponderPipeline.mk stages)).

(** A stage that returns the list object it was given, with a batch
    aligned on the one it found there. *)
Definition keeps_batch (stage : Responder) : Prop :=
  forall l s l' s' batch,
    lists s !! l = Some batch ->
    stage l s = (Ok l', s') ->
    l' = l /\ exists batch', lists s' !! l = Some batch' /\ aligned s s' batch batch'.

(** ** Sample data

    A run-time, a client that answers from a script (the n-th request made
    gets the n-th answer, a request after the last one fails), addresses and
    answers of the two services. *)

Definition sample_env : Env :=
  {| container_repr := fun _ => "[]";
     field_missing := fun v => match v with PNone => true | _ => false end |}.

Definition scripted (answers : list (Result pyval)) : ApiClient :=
  {| client_get := fun h _ => nth (length h) answers (Raise (ApiError "timed out"));
     client_post := fun h _ => nth (length h) answers (Raise (ApiError "timed out")) |}.

Definition main_st : Address.t :=
  Address.mk (PStr "123") (PStr "Main St") (PStr "") (PStr "Springfield")
    (PStr "IL") (PStr "62704") PNone.

Definition main_st_routed : Address.t :=
  Address.set_carrier_route main_st (PStr "C001").

Definition elm_st : Address.t :=
  Address.mk (PStr "12") (PStr "Elm St") PNone (PStr "Springfield")
    (PStr "IL") (PStr "62704") PNone.

Definition main_st_attributes : pyval :=
  PDict [("AddNum", PStr "123"); ("StName", PStr "Main"); ("StType", PStr "St");
         ("SubAddr", PStr ""); ("City", PStr "Springfield");
         ("RegionAbbr", PStr "IL"); ("Postal", PStr "62704")].

Definition main_ave_attributes : pyval :=
  PDict [("AddNum", PStr "123"); ("StName", PStr "Main"); ("StType", PStr "Ave");
         ("SubAddr", PStr ""); ("City", PStr "Springfield");
         ("RegionAbbr", PStr "IL"); ("Postal", PStr "62705")].

Definition main_ave : Address.t :=
  Address.mk (PStr "123") (PStr "Main Ave") (PStr "") (PStr "Springfield")
    (PStr "IL") (PStr "62705") PNone.

Definition candidates_answer (attributes : list pyval) : pyval :=
  PDict [("candidates",
          PList (map (fun a => PDict [("attributes", a)]) attributes))].

Definition routes_answer (routes : list pyval) : pyval :=
  PDict [("addressList",
          PList (map (fun r => PDict [("carrierRoute", r)]) routes))].

(** A response whose third entry is not an object. *)
Definition routes_then_number : pyval :=
  PDict [("addressList",
          PList [PDict [("carrierRoute", PStr "")];
                 PDict [("carrierRoute", PStr "C001")];
                 PInt 3])].

Definition one_address (o : Address.t) : Store :=
  {| addrs := [o]; lists := [[0]]; log := [] |}.

Definition two_addresses : Store :=
  {| addrs := [main_st; elm_st]; lists := [[0; 1]]; log := [] |}.

(** The validation stage and then the carrier-route stage on two addresses:
    the first is confirmed, the second has no candidate, both get a
    route. *)
Definition two_stage_script : list (Result pyval) :=
  [Ok (candidates_answer [main_st_attributes]); Ok (candidates_answer []);
   Ok (routes_answer [PStr "C001"]); Ok (routes_answer [PStr ""; PStr "C002"])].

Definition two_stages : list Responder :=
  [AddressValidationResponder.respond (H := sample_env)
     (scripted two_stage_script);
   CarrierRouteRetreiverResponder.respond (H := sample_env)
     (scripted two_stage_script)].

(** A script for two addresses: a candidate on another street for the
    first, an answer without [candidates] for the second. *)
Definition failing_script : list (Result pyval) :=
  [Ok (candidates_answer [main_ave_attributes]); Ok (PDict [])].

(** ** Further vocabulary *)

(** The store after the request [q] was made. *)
Definition logged (s : Store) (q : Request) : Store :=
  {| addrs := addrs s; lists := lists s; log := log s ++ [q] |}.

(** The objects the entries of a batch refer to, entry by entry. *)
Definition objects (s : Store) (batch : list loc) (objs : list Address.t) : Prop :=
  Forall2 (fun a o => addrs s !! a = Some o) batch objs.

(** Between [s] and [s'] no address object that was there has changed,
    objects may have been created, list [l] has kept its length and every
    other list is as it was. *)
Definition only_list_changed (l : lref) (s s' : Store) : Prop :=
  (exists extra, addrs s' = addrs s ++ extra) /\
  (forall l2, l2 <> l -> lists s' !! l2 = lists s !! l2) /\
  (forall batch, lists s !! l = Some batch ->
     exists batch', lists s' !! l = Some batch' /\ length batch' = length batch).

(** An answer of the candidate lookup from which no list of candidates
    can be read, with the error Python raises on it: the answer is not an
    object, it has no [candidates], or [candidates] has no length. *)
Inductive no_candidates_in : pyval -> exn -> Prop :=
| answer_not_an_object resp :
    (forall kvs, resp <> PDict kvs) ->
    no_candidates_in resp TypeError
| answer_without_candidates kvs :
    dict_get kvs "candidates" = None ->
    no_candidates_in (PDict kvs) (KeyError (PStr "candidates"))
| candidates_without_length kvs v :
    dict_get kvs "candidates" = Some v ->
    py_len v = Raise TypeError ->
    no_candidates_in (PDict kvs) TypeError.

(** The attributes [validate] reads from a candidate, in the order in which
    it reads them. *)
Definition candidate_attributes : list string :=
  ["AddNum"; "StName"; "StType"; "SubAddr"; "City"; "RegionAbbr"; "Postal"].

(** Between [s] and [s'] the lists are as they were, no object was created
    and every address object has the core fields it had; an object that is
    not among [members] has not changed at all. *)
Definition only_routes_changed (members : list loc) (s s' : Store) : Prop :=
  lists s' = lists s /\
  length (addrs s') = length (addrs s) /\
  forall a o,
    addrs s !! a = Some o ->
    exists o',
      addrs s' !! a = Some o' /\
      Address.core o' = Address.core o /\
      (a ∉ members -> o' = o).

(** The objects the entries of a batch refer to, up to their carrier
    routes. *)
Definition objects_up_to_route (s : Store) (batch : list loc)
    (objs : list Address.t) : Prop :=
  Forall2 (fun a o => exists o', addrs s !! a = Some o' /\
                                 Address.core o' = Address.core o) batch objs.

(** What the route lookup answered, when no list of entries can be read
    from it, with the error the step raises: the call itself raised, the
    answer is not an object, it has no [addressList], or [addressList]
    cannot be iterated. *)
Inductive no_address_list_in : Result pyval -> exn -> Prop :=
| route_call_raised e : no_address_list_in (Raise e) e
| route_answer_not_an_object resp :
    (forall kvs, resp <> PDict kvs) ->
    no_address_list_in (Ok resp) TypeError
| route_answer_without_list kvs :
    dict_get kvs "addressList" = None ->
    no_address_list_in (Ok (PDict kvs)) (KeyError (PStr "addressList"))
| address_list_not_iterable kvs v :
    dict_get kvs "addressList" = Some v ->
    py_iter v = Raise TypeError ->
    no_address_list_in (Ok (PDict kvs)) TypeError.

(** ** The application factory of [web/__init__.py]

    The module defines its error handlers and [create_app].  A page is kept
    as the template and the context [render_template] was asked for; an
    error is given to a handler as the text [f"{e}"] prints.  The names of
    the module are a dictionary, which each [def] updates. *)

Module Web.

Record Page : Type := { template : string; context : list (string * string) }.

Definition render_template (name : string) (ctx : list (string * string)) : Page :=
  {| template := name; context := ctx |}.

Definition Handler : Type := string -> Page * nat.

Definition page_not_found : Handler :=
  fun e => (render_template "error/404.html" [], 404).

(** The first [def server_error], which renders the 500 page. *)
Definition server_error : Handler :=
  fun e => (render_template "error/500.html" [("error", e)], 500).

(** The second [def server_error], which renders the 504 page. *)
Definition server_error' : Handler :=
  fun e => (render_template "error/504.html" [("error", e)], 504).

(** The names of the module once its [def]s have run, in their order. *)
Definition module_globals : gmap string Handler :=
  <["server_error" := server_error']>
    (<["server_error" := server_error]>
       (<["page_not_found" := page_not_found]> ∅)).

Inductive error : Type :=
| OSError
| NameError (name : string)
| OtherError (msg : string).

Record App : Type := {
  config : list (string * pyval);
  blueprints : list string;
  error_handlers : gmap nat Handler
}.

(** [create_app]: [secret] is the text of [str(hash(random()))], [makedirs]
    what [os.makedirs] did, [None] when it returned.  Only [OSError] is
    caught. *)
Definition create_app (globals : gmap string Handler) (secret : string)
    (makedirs : option error) : error + App :=
  let config :=
    [("MAX_CONTENT_LENGTH", PInt (1000 * 1000 * 1000));
     ("UPLOAD_FOLDER", PStr "web/files");
     ("EXPORT_FILE", PStr "files/export.xlsx");
     ("SECRET_KEY", PStr secret)] in
  match makedirs with
  | Some (NameError n) => inl (NameError n)
  | Some (OtherError m) => inl (OtherError m)
  | Some OSError | None =>
      let blueprints := ["file_upload"; "report"] in
      match globals !! "page_not_found" with
      | None => inl (NameError "page_not_found")
      | Some not_found =>
          match globals !! "server_error" with
          | None => inl (NameError "server_error")
          | Some failed =>
              inr {| config := config; blueprints := blueprints;
                     error_handlers := <[500 := failed]> (<[404 := not_found]> ∅) |}
          end
      end
  end.

End Web.

(** ** Further sample data *)

(** Answers for two addresses: the first is confirmed, the second has no
    candidate; a third request gets no answer. *)
Definition confirming_script : list (Result pyval) :=
  [Ok (candidates_answer [main_st_attributes]); Ok (candidates_answer [])].

(** A list of candidates whose first candidate is an empty object. *)
Definition empty_candidate_answer : pyval :=
  PDict [("candidates", PList [PDict []])].

(** A candidate with a street number and a street name and nothing else. *)
Definition short_attributes : list (string * pyval) :=
  [("AddNum", PStr "123"); ("StName", PStr "Main")].

(** A route for the first address; the second request gets no answer. *)
Definition one_route_script : list (Result pyval) :=
  [Ok (routes_answer [PStr "C001"])].

(** Entries of which the second has no route at all. *)
Definition routeless_entry_answer : pyval :=
  PDict [("addressList",
          PList [PDict [("carrierRoute", PStr "")]; PDict []])].

Definition no_address : Store :=
  {| addrs := []; lists := [[]]; log := [] |}.

(** ** Vocabulary of the statements on a whole run *)

(** The log when a stage, called with log [h] on a batch whose objects are
    [objs], reaches the entry at index [idx]: one request was made for each
    entry before it. *)
Definition lookups_before `{Env} (h : list Request) (objs : list Address.t)
    (idx : nat) : list Request :=
  h ++ map lookup_request (take idx objs).

Definition routes_before `{Env} (h : list Request) (objs : list Address.t)
    (idx : nat) : list Request :=
  h ++ map route_request (take idx objs).

(** What the scan of the entries of an answer finds: the route of the first
    entry whose route is truthy, the entries before it having routes that
    are not, or nothing when no entry has a truthy route. *)
Inductive first_route : list pyval -> option pyval -> Prop :=
| first_route_found pre e post v :
    Forall no_route pre ->
    getitem e "carrierRoute" = Ok v ->
    truthy v = true ->
    first_route (pre ++ e :: post) (Some v)
| first_route_none items :
    Forall no_route items ->
    first_route items None.

(** The route lookup for an address with fields [o], made when the log is
    [h], answers with a list of entries in which the scan finds [found]. *)
Definition route_found `{Env} (c : ApiClient) (h : list Request)
    (o : Address.t) (found : option pyval) : Prop :=
  exists resp address_list items,
    client_post c h (route_request o) = Ok resp /\
    getitem resp "addressList" = Ok address_list /\
    py_iter address_list = Ok items /\
    first_route items found.

(** What the validation stage leaves in place of an entry with fields [o]
    whose lookup is made when the log is [h]: the entry itself, or the
    address built from the first candidate of the answer to the lookup of
    [o], which differs from [o] on the core fields. *)
Definition validated `{Env} (c : ApiClient) (h : list Request)
    (o o' : Address.t) : Prop :=
  o' = o \/
  exists resp candidates cand b,
    client_get c h (lookup_request o) = Ok resp /\
    getitem resp "candidates" = Ok candidates /\
    getitem0 candidates = Ok cand /\
    AddressValidationResponder.candidate cand = Ok b /\
    Address.eqb o (AddressBuilder.built b) = false /\
    o' = AddressBuilder.built b.

(** The two lookup stages by name, the stage each one is, and the requests
    a run of it that returns has made on a batch whose objects are
    [objs]. *)
Inductive lookup : Type :=
| Validation (c : ApiClient)
| CarrierRoute (c : ApiClient).

Definition stage_of `{Env} (k : lookup) : Responder :=
  match k with
  | Validation c => AddressValidationResponder.respond c
  | CarrierRoute c => CarrierRouteRetreiverResponder.respond c
  end.

Definition requests_of `{Env} (k : lookup) (objs : list Address.t) : list Request :=
  match k with
  | Validation _ => map lookup_request objs
  | CarrierRoute _ => map route_request objs
  end.

(** Entry by entry, what a stage called with log [h] makes of the objects
    [objs] of a batch: the validation stage leaves at index [i] the entry
    or the candidate of the lookup made for that entry; the carrier-route
    stage leaves the entry, with the core fields it had. *)
Definition stage_entries `{Env} (k : lookup) (h : list Request)
    (objs objs' : list Address.t) : Prop :=
  length objs' = length objs /\
  forall i o o',
    objs !! i = Some o -> objs' !! i = Some o' ->
    match k with
    | Validation c => validated c (lookups_before h objs i) o o'
    | CarrierRoute _ => Address.core o' = Address.core o
    end.

(** The same for stages run one after the other. *)
Fixpoint entries_after `{Env} (ks : list lookup) (h : list Request)
    (objs objs' : list Address.t) : Prop :=
  match ks with
  | [] => objs' = objs
  | k :: rest =>
      exists objs1,
        stage_entries k h objs objs1 /\
        entries_after rest (h ++ requests_of k objs) objs1 objs'
  end.

(** A lookup stage, or a pipeline of at least one of them. *)
Inductive runs_stages `{Env} : Responder -> list lookup -> Prop :=
| runs_one k : runs_stages (stage_of k) [k]
| runs_pipeline ks :
    ks <> [] ->
    runs_stages
      (ResponderPipeline.respond (ResponderPipeline.mk (map stage_of ks))) ks.

(** ** Sample data for whole runs *)

(** Routes for two addresses: for the first an entry without route, an
    entry with a route and an entry that is not an object; for the second
    one entry without route. *)
Definition two_route_script : list (Result pyval) :=
  [Ok routes_then_number; Ok (routes_answer [PStr ""])].

(** The validation stage and the carrier-route stage of [two_stages], by
    name. *)
Definition two_lookups : list lookup :=
  [Validation (scripted two_stage_script);
   CarrierRoute (scripted two_stage_script)].

(** * Properties *)

(** ** Sequencing *)

Lemma bind_Ok {A B} (m : M A) (k : A -> M B) s a s' :
  m s = (Ok a, s') -> bind m k s = k a s'.
Proof. intros E. unfold bind. now rewrite E. Qed.

Lemma bind_Raise {A B} (m : M A) (k : A -> M B) s e s' :
  m s = (Raise e, s') -> bind m k s = (Raise e, s').
Proof. intros E. unfold bind. now rewrite E. Qed.

Lemma bind_inv_Ok {A B} (m : M A) (k : A -> M B) s b s2 :
  bind m k s = (Ok b, s2) ->
  exists a s1, m s = (Ok a, s1) /\ k a s1 = (Ok b, s2).
Proof.
  unfold bind. destruct (m s) as [[a|e] s1]; intros E.
  - now exists a, s1.
  - discriminate.
Qed.

Lemma bind_inv_Raise {A B} (m : M A) (k : A -> M B) s e s2 :
  bind m k s = (Raise e, s2) ->
  m s = (Raise e, s2) \/
  exists a s1, m s = (Ok a, s1) /\ k a s1 = (Raise e, s2).
Proof.
  unfold bind. destruct (m s) as [[a|e'] s1]; intros E.
  - right. now exists a, s1.
  - left. now inversion E.
Qed.

Lemma for_each_app {A} (xs ys : list A) (body : A -> M unit) s :
  for_each (xs ++ ys) body s = (for_each xs body ;;; for_each ys body) s.
Proof.
  revert s. induction xs as [|x xs IH]; intros s; simpl.
  - reflexivity.
  - unfold bind. destruct (body x s) as [[u|e] s1]; simpl.
    + rewrite IH. reflexivity.
    + reflexivity.
Qed.

(** A loop that raises does so at one item, after the items before it were
    done and without looking at the items after it. *)
Lemma for_each_inv_Raise {A} (xs : list A) (body : A -> M unit) s e s' :
  for_each xs body s = (Raise e, s') ->
  exists pre x post sk,
    xs = pre ++ x :: post /\
    for_each pre body s = (Ok tt, sk) /\
    body x sk = (Raise e, s').
Proof.
  revert s. induction xs as [|x xs IH]; intros s; simpl.
  - discriminate.
  - intros E. apply bind_inv_Raise in E as [E|(u & s1 & E1 & E2)].
    + exists [], x, xs, s. repeat split; trivial.
    + destruct (IH _ E2) as (pre & y & post & sk & -> & Epre & Ey).
      exists (x :: pre), y, post, sk. repeat split; trivial.
      simpl. destruct u. now rewrite (bind_Ok _ _ _ _ _ E1).
Qed.

Lemma for_each_snoc_Raise {A} (pre : list A) x post (body : A -> M unit) s sk e s' :
  for_each pre body s = (Ok tt, sk) ->
  body x sk = (Raise e, s') ->
  for_each (pre ++ x :: post) body s = (Raise e, s').
Proof.
  intros Epre Ex. rewrite for_each_app.
  rewrite (bind_Ok _ _ _ _ _ Epre). simpl.
  now rewrite (bind_Raise _ _ _ _ _ Ex).
Qed.


(** ** The validation stage, one entry at a time *)

Section validation_entries.
Context `{Env}.
Variable c : ApiClient.

Lemma entry_Some s l idx a o :
  entry s l idx = Some (a, o) ->
  exists batch, lists s !! l = Some batch /\ batch !! idx = Some a /\ addrs s !! a = Some o.
Proof.
  unfold entry. destruct (lists s !! l) as [batch|] eqn:El; [|discriminate].
  destruct (batch !! idx) as [a'|] eqn:Ei; [|discriminate].
  destruct (addrs s !! a') as [o'|] eqn:Ea; [|discriminate].
  intros [= -> ->]. now exists batch.
Qed.

Lemma getitem0_len v x : getitem0 v = Ok x -> exists n, py_len v = Ok (S n).
Proof.
  destruct v as [| | |s|xs|kvs]; simpl; try discriminate.
  - destruct s; [discriminate|]. intros _. now eexists.
  - destruct xs; [discriminate|]. intros _. now eexists.
Qed.

Lemma getitem_truthy v k x : getitem v k = Ok x -> truthy v = true.
Proof.
  destruct v as [| | | | |kvs]; simpl; try discriminate.
  destruct kvs; [discriminate|reflexivity].
Qed.

Lemma candidate_truthy v b :
  AddressValidationResponder.candidate v = Ok b -> truthy v = true.
Proof.
  unfold AddressValidationResponder.candidate.
  destruct (getitem v "attributes") eqn:E; [|discriminate].
  intros _. eapply getitem_truthy, E.
Qed.

Lemma validation_step_candidate s l idx batch a o resp candidates cand b :
  lists s !! l = Some batch ->
  batch !! idx = Some a ->
  addrs s !! a = Some o ->
  client_get c (log s) (lookup_request o) = Ok resp ->
  getitem resp "candidates" = Ok candidates ->
  getitem0 candidates = Ok cand ->
  AddressValidationResponder.candidate cand = Ok b ->
  AddressBuilder.incomplete b = false ->
  AddressValidationResponder.respond_step c l idx s =
    (Ok tt,
     if Address.eqb o (AddressBuilder.built b) then looked_up s o b
     else {| addrs := addrs s ++ [AddressBuilder.built b];
             lists := <[l := <[idx := length (addrs s)]> batch]> (lists s);
             log := log s ++ [lookup_request o] |}).
Proof.
  intros Hl Hi Ha Hget Hcand H0 Hb Hinc.
  destruct (getitem0_len _ _ H0) as [n Hlen].
  pose proof (candidate_truthy _ _ Hb) as Ht.
  unfold AddressValidationResponder.respond_step, list_getitem, list_items,
    load, api_get, call, bind, lift, ret.
  rewrite Hl, Hi, Ha. fold (lookup_request o). rewrite Hget, Hcand, Hlen.
  rewrite H0. cbn [Nat.eqb]. cbv beta iota.
  unfold AddressValidationResponder.validate, AddressBuilder.build, bind, lift,
    load, new_address, ret.
  rewrite Ht. cbn [negb]. cbv beta iota. rewrite Hb, Hinc. cbv beta iota.
  cbn [addrs lists log].
  rewrite (lookup_app_l_Some _ _ _ _ Ha).
  cbn [addrs lists log]. rewrite list_lookup_middle by reflexivity.
  cbn [fst snd].
  destruct (Address.eqb o (AddressBuilder.built b)); cbn [negb]; cbv beta iota.
  - reflexivity.
  - unfold list_setitem. cbn [addrs lists log]. rewrite Hl.
    apply lookup_lt_Some in Hi. apply Nat.ltb_lt in Hi. now rewrite Hi.
Qed.


(** One step: when the lookup of an entry answers with zero candidates, the
    step returns and the entry is kept: the same object, with the fields it
    had. *)
Lemma validation_zero_candidates_step s l idx a o resp candidates :
  entry s l idx = Some (a, o) ->
  client_get c (log s) (lookup_request o) = Ok resp ->
  getitem resp "candidates" = Ok candidates ->
  py_len candidates = Ok 0 ->
  exists s',
    AddressValidationResponder.respond_step c l idx s = (Ok tt, s') /\
    entry s' l idx = Some (a, o) /\
    (forall a' o', entry s' l idx = Some (a', o') ->
                   Address.core o' = Address.core o) /\
    lists s' = lists s /\ addrs s' = addrs s.
Proof.
  intros (batch & Hl & Hi & Ha)%entry_Some Hget Hcand Hlen.
  unfold AddressValidationResponder.respond_step, list_getitem, list_items, load, api_get, call, bind, lift, ret.
  fold (lookup_request o).
  rewrite Hl, Hi, Ha. fold (lookup_request o). rewrite Hget, Hcand, Hlen. simpl.
  eexists. split; [reflexivity|].
  assert (E : entry {| addrs := addrs s; lists := lists s;
                       log := log s ++ [lookup_request o] |} l idx
              = Some (a, o)).
  { unfold entry; simpl. now rewrite Hl, Hi, Ha. }
  repeat split; trivial.
  intros a' o' E'. rewrite E in E'. now injection E' as <- <-.
Qed.

(** One step: when the address built from the first candidate equals the
    entry on the core fields, the step returns and the entry is the original
    object with every field as it was, its carrier route included. *)
Lemma validation_keeps_equal_entry_step s l idx a o resp candidates cand b :
  entry s l idx = Some (a, o) ->
  client_get c (log s) (lookup_request o) = Ok resp ->
  getitem resp "candidates" = Ok candidates ->
  getitem0 candidates = Ok cand ->
  AddressValidationResponder.candidate cand = Ok b ->
  AddressBuilder.incomplete b = false ->
  Address.eqb o (AddressBuilder.built b) = true ->
  exists s',
    AddressValidationResponder.respond_step c l idx s = (Ok tt, s') /\
    entry s' l idx = Some (a, o) /\
    lists s' = lists s.
Proof.
  intros (batch & Hl & Hi & Ha)%entry_Some Hget Hcand H0 Hb Hinc Heq.
  rewrite (validation_step_candidate _ _ _ _ _ _ _ _ _ _
             Hl Hi Ha Hget Hcand H0 Hb Hinc), Heq.
  eexists. split; [reflexivity|]. split; [|reflexivity].
  unfold entry, looked_up; cbn [addrs lists log].
  now rewrite Hl, Hi, (lookup_app_l_Some _ _ _ _ Ha).
Qed.

(** One step: when the first candidate exists and the address built from
    its attributes differs from the entry on the core fields, the step
    returns and the entry at that index is a new object whose fields are
    the candidate's and whose carrier route is not set; the object that
    was there is not changed. *)
Lemma validation_replaces_entry_step s l idx a o resp candidates cand attrs
    add_num st_name st_type sub_addr city region postal :
  let derived :=
    Address.mk add_num (PStr (py_str st_name +:+ " " +:+ py_str st_type))
      sub_addr city region postal PNone in
  entry s l idx = Some (a, o) ->
  client_get c (log s) (lookup_request o) = Ok resp ->
  getitem resp "candidates" = Ok candidates ->
  getitem0 candidates = Ok cand ->
  getitem cand "attributes" = Ok attrs ->
  getitem attrs "AddNum" = Ok add_num ->
  getitem attrs "StName" = Ok st_name ->
  getitem attrs "StType" = Ok st_type ->
  getitem attrs "SubAddr" = Ok sub_addr ->
  getitem attrs "City" = Ok city ->
  getitem attrs "RegionAbbr" = Ok region ->
  getitem attrs "Postal" = Ok postal ->
  AddressBuilder.incomplete
    (AddressBuilder.mk (Address.street_number derived)
       (Address.street_name derived) sub_addr city region postal) = false ->
  Address.eqb o derived = false ->
  exists s' a',
    AddressValidationResponder.respond_step c l idx s = (Ok tt, s') /\
    entry s' l idx = Some (a', derived) /\
    a' <> a /\ addrs s !! a' = None /\
    addrs s' !! a = Some o.
Proof.
  intros derived (batch & Hl & Hi & Ha)%entry_Some Hget Hcand H0
    Hattrs Hnum Hname Htype Hsub Hcity Hregion Hpostal Hinc Hneq.
  assert (Hb : AddressValidationResponder.candidate cand
               = Ok (AddressBuilder.mk (Address.street_number derived)
                       (Address.street_name derived) sub_addr city region postal)).
  { unfold AddressValidationResponder.candidate.
    now rewrite Hattrs, Hnum, Hname, Htype, Hsub, Hcity, Hregion, Hpostal. }
  rewrite (validation_step_candidate _ _ _ _ _ _ _ _ _ _
             Hl Hi Ha Hget Hcand H0 Hb Hinc).
  change (AddressBuilder.built _) with derived. rewrite Hneq.
  exists {| addrs := addrs s ++ [derived];
            lists := <[l := <[idx := length (addrs s)]> batch]> (lists s);
            log := log s ++ [lookup_request o] |}, (length (addrs s)).
  pose proof (lookup_lt_Some _ _ _ Ha) as Hlt.
  split; [reflexivity|]. repeat split.
  - unfold entry; cbn [addrs lists log].
    rewrite list_lookup_insert_eq by (eapply lookup_lt_Some; eauto).
    rewrite list_lookup_insert_eq by (eapply lookup_lt_Some; eauto).
    now rewrite list_lookup_middle.
  - lia.
  - now apply lookup_ge_None.
  - cbn [addrs]. now apply lookup_app_l_Some.
Qed.

End validation_entries.

(** ** The carrier-route stage, one address at a time *)

Section carrier_entries.
Context `{Env}.
Variable c : ApiClient.

Lemma scan_no_route a items s :
  Forall no_route items ->
  CarrierRouteRetreiverResponder.scan a items s = (Ok tt, s).
Proof.
  induction 1 as [|x items (v & Hv & Hf) _ IH]; simpl.
  - reflexivity.
  - unfold bind, lift. now rewrite Hv, Hf.
Qed.

Lemma scan_first_route a pre e post v s :
  Forall no_route pre ->
  getitem e "carrierRoute" = Ok v ->
  truthy v = true ->
  CarrierRouteRetreiverResponder.scan a (pre ++ e :: post) s
  = setattr_carrier_route a v s.
Proof.
  intros Hpre He Hv. induction Hpre as [|x pre (w & Hw & Hf) _ IH]; simpl.
  - unfold bind, lift. now rewrite He, Hv.
  - unfold bind, lift. now rewrite Hw, Hf.
Qed.

Lemma carrier_step_scan s a o resp address_list items :
  addrs s !! a = Some o ->
  client_post c (log s) (route_request o) = Ok resp ->
  getitem resp "addressList" = Ok address_list ->
  py_iter address_list = Ok items ->
  CarrierRouteRetreiverResponder.respond_step c a s
  = CarrierRouteRetreiverResponder.scan a items
      {| addrs := addrs s; lists := lists s; log := log s ++ [route_request o] |}.
Proof.
  intros Ha Hpost Hlist Hiter.
  unfold CarrierRouteRetreiverResponder.respond_step, load, api_post, call,
    bind, lift.
  rewrite Ha. fold (route_request o). now rewrite Hpost, Hlist, Hiter.
Qed.

(** One step: the entries of the response are scanned in order.  The route
    of the first entry whose route is truthy becomes the address's carrier
    route, whatever the entries after it are (they are not looked at); when
    no entry has a truthy route the carrier route, like every other field,
    is left as it was. *)
Lemma carrier_route_first_truthy_step s a o resp address_list items :
  addrs s !! a = Some o ->
  client_post c (log s) (route_request o) = Ok resp ->
  getitem resp "addressList" = Ok address_list ->
  py_iter address_list = Ok items ->
  (forall pre e post v,
      items = pre ++ e :: post ->
      Forall no_route pre ->
      getitem e "carrierRoute" = Ok v ->
      truthy v = true ->
      exists s',
        CarrierRouteRetreiverResponder.respond_step c a s = (Ok tt, s') /\
        addrs s' = <[a := Address.set_carrier_route o v]> (addrs s) /\
        addrs s' !! a = Some (Address.set_carrier_route o v) /\
        lists s' = lists s) /\
  (Forall no_route items ->
   exists s',
     CarrierRouteRetreiverResponder.respond_step c a s = (Ok tt, s') /\
     addrs s' = addrs s /\
     addrs s' !! a = Some o /\
     lists s' = lists s).
Proof.
  intros Ha Hpost Hlist Hiter.
  rewrite (carrier_step_scan _ _ _ _ _ _ Ha Hpost Hlist Hiter). split.
  - intros pre e post v -> Hpre He Hv.
    rewrite (scan_first_route _ _ _ _ _ _ Hpre He Hv).
    unfold setattr_carrier_route. cbn [addrs lists log]. rewrite Ha.
    eexists. split; [reflexivity|]. cbn [addrs lists].
    split; [reflexivity|]. split; [|reflexivity].
    apply list_lookup_insert_eq. eapply lookup_lt_Some, Ha.
  - intros Hnone. rewrite (scan_no_route _ _ _ Hnone).
    eexists. split; [reflexivity|]. now cbn [addrs lists].
Qed.

End carrier_entries.

(** ** The pipeline *)

Section pipeline.

Lemma respond_loop_app rs1 rs2 l r s :
  ResponderPipeline.respond_loop (rs1 ++ rs2) l r s
  = (r' <- ResponderPipeline.respond_loop rs1 l r ;;
     ResponderPipeline.respond_loop rs2 l r') s.
Proof.
  revert r s. induction rs1 as [|stage rs1 IH]; intros r s; simpl.
  - reflexivity.
  - unfold bind. destruct (stage l s) as [[x|e] s1]; simpl.
    + rewrite IH. reflexivity.
    + reflexivity.
Qed.

(** C10: on a pipeline with no stage, [respond] raises (the variable
    [response] is not bound) whatever the batch; it does not return the
    batch, and the store is left as it was. *)
Theorem pipeline_no_stage_raises l s :
  ResponderPipeline.respond (ResponderPipeline.mk []) l s
  = (Raise (UnboundLocalError "response"), s)
  /\ ResponderPipeline.respond ResponderPipeline.init l s
     = (Raise (UnboundLocalError "response"), s).
Proof. split; reflexivity. Qed.

(** C7: [add_first] puts the stage before the stages already there and
    [add_last] after them, and the loop of [respond] calls the stages in
    that order: from [A, B], [add_first C] then [add_last D] give
    [C, A, B, D], which is also the order in which four marking stages
    leave their marks. *)
Theorem pipeline_insertion_order :
  (forall p stage l r s,
      ResponderPipeline.responders (ResponderPipeline.add_first p stage)
      = stage :: ResponderPipeline.responders p /\
      ResponderPipeline.respond_loop
        (ResponderPipeline.responders (ResponderPipeline.add_first p stage)) l r s
      = (x <- stage l ;;
         ResponderPipeline.respond_loop (ResponderPipeline.responders p) l (Some x)) s) /\
  (forall p stage l r s,
      ResponderPipeline.responders (ResponderPipeline.add_last p stage)
      = ResponderPipeline.responders p ++ [stage] /\
      ResponderPipeline.respond_loop
        (ResponderPipeline.responders (ResponderPipeline.add_last p stage)) l r s
      = (ResponderPipeline.respond_loop (ResponderPipeline.responders p) l r ;;;
         x <- stage l ;; ret (Some x)) s) /\
  (forall A B C D,
      ResponderPipeline.responders
        (ResponderPipeline.add_last
           (ResponderPipeline.add_first (ResponderPipeline.mk [A; B]) C) D)
      = [C; A; B; D]) /\
  (forall l s,
      let p :=
        ResponderPipeline.add_last
          (ResponderPipeline.add_first
             (ResponderPipeline.mk [marking "A"; marking "B"]) (marking "C"))
          (marking "D") in
      fst (ResponderPipeline.respond p l s) = Ok l /\
      map req_url (log (snd (ResponderPipeline.respond p l s)))
      = map req_url (log s) ++ ["C"; "A"; "B"; "D"]).
Proof.
  split; [|split; [|split]].
  - intros p stage l r s. split; reflexivity.
  - intros p stage l r s. split; [reflexivity|].
    unfold ResponderPipeline.add_last. cbn [ResponderPipeline.responders].
    rewrite respond_loop_app. reflexivity.
  - reflexivity.
  - intros l s. split; [reflexivity|]. cbn.
    rewrite !map_app. cbn. rewrite <- !app_assoc. reflexivity.
Qed.

Lemma respond_loop_threaded rs l s :
  Forall returns_its_input rs ->
  ResponderPipeline.respond_loop rs l (Some l) s
  = (x <- threaded rs l ;; ret (Some x)) s.
Proof.
  intros Hrs. revert s. induction Hrs as [|stage rs Hstage _ IH]; intros s; simpl.
  - reflexivity.
  - unfold bind. destruct (stage l s) as [[x|e] s1] eqn:E.
    + apply Hstage in E as ->. rewrite IH. reflexivity.
    + reflexivity.
Qed.

Lemma validation_returns_its_input `{Env} c :
  returns_its_input (AddressValidationResponder.respond c).
Proof.
  intros l s l' s'. unfold AddressValidationResponder.respond.
  intros (n & s1 & _ & (u & s2 & _ & [= <- _])%bind_inv_Ok)%bind_inv_Ok.
  reflexivity.
Qed.

Lemma carrier_returns_its_input `{Env} c :
  returns_its_input (CarrierRouteRetreiverResponder.respond c).
Proof.
  intros l s l' s'. unfold CarrierRouteRetreiverResponder.respond.
  intros (n & s1 & _ & (u & s2 & _ & [= <- _])%bind_inv_Ok)%bind_inv_Ok.
  reflexivity.
Qed.

Lemma respond_loop_each_on_input rs l : forall x s,
  ResponderPipeline.respond_loop rs l (Some x) s
  = (y <- each_on_input rs l x ;; ret (Some y)) s.
Proof.
  induction rs as [|stage rs IH]; intros x s; simpl.
  - reflexivity.
  - unfold bind. destruct (stage l s) as [[y|e] s1].
    + rewrite IH. reflexivity.
    + reflexivity.
Qed.

(** C1, as the code has it: [respond] calls the stages in list order, gives
    every stage the list object it was given itself and returns what the
    last stage returned; when every stage returns the list object it was
    given, that is the same as feeding each stage's output to the next
    one. *)
Theorem pipeline_respond_threads stage rest l s :
  ResponderPipeline.respond (ResponderPipeline.mk (stage :: rest)) l s
  = each_on_input (stage :: rest) l l s /\
  (Forall returns_its_input (stage :: rest) ->
   ResponderPipeline.respond (ResponderPipeline.mk (stage :: rest)) l s
   = threaded (stage :: rest) l s).
Proof.
  unfold ResponderPipeline.respond. cbn [ResponderPipeline.responders].
  simpl. split.
  - unfold bind. destruct (stage l s) as [[x|e] s1]; [|reflexivity].
    rewrite respond_loop_each_on_input. unfold bind.
    destruct (each_on_input rest l x s1) as [[y|e] s2]; reflexivity.
  - intros [Hstage Hrest]%Forall_cons.
    unfold bind. destruct (stage l s) as [[x|e] s1] eqn:E; [|reflexivity].
    apply Hstage in E as ->. rewrite (respond_loop_threaded _ _ _ Hrest).
    unfold bind. destruct (threaded rest l s1) as [[y|e] s2]; reflexivity.
Qed.

End pipeline.

(** ** What a stage does to the store *)

Section stage_effects.
Context `{Env}.

Lemma validation_step_effect c l idx s r s' b :
  lists s !! l = Some b ->
  AddressValidationResponder.respond_step c l idx s = (r, s') ->
  exists extra,
    addrs s' = addrs s ++ extra /\
    match r with
    | Ok _ =>
        (exists q, log s' = log s ++ [q]) /\
        (lists s' = lists s \/
         (lists s' = <[l := <[idx := length (addrs s)]> b]> (lists s) /\ extra <> []))
    | Raise e =>
        lists s' = lists s /\
        ((exists q, log s' = log s ++ [q]) \/
         (log s' = log s /\ forall a, b !! idx = Some a -> addrs s !! a = None))
    end.
Proof.
  intros Hl.
  unfold AddressValidationResponder.respond_step, AddressValidationResponder.validate,
    AddressBuilder.build, list_getitem, list_items, list_setitem, load, new_address,
    api_get, call, bind, lift, ret, raise.
  rewrite Hl.
  repeat (case_match; simplify_eq; cbn [addrs lists log fst snd negb] in * ).
  all: intros [= <- <-]; cbn [addrs lists log].
  all: try (exists []; rewrite app_nil_r; split; [reflexivity|]; eauto 10; fail).
  all: try (eexists [_]; split; [reflexivity|]; eauto 10; fail).
  all: exists []; rewrite app_nil_r; split; [reflexivity|]; split; [reflexivity|].
  all: right; split; [reflexivity|]; intros; congruence.
Qed.

Lemma validation_step_Ok c l idx s u s' b :
  lists s !! l = Some b ->
  AddressValidationResponder.respond_step c l idx s = (Ok u, s') ->
  exists b' extra,
    lists s' !! l = Some b' /\
    addrs s' = addrs s ++ extra /\
    length (log s') = S (length (log s)) /\
    length b' = length b /\
    (forall j, j <> idx -> b' !! j = b !! j) /\
    (forall a', b' !! idx = Some a' ->
                b !! idx = Some a' \/ length (addrs s) <= a' < length (addrs s')).
Proof.
  intros Hl Hstep.
  destruct (validation_step_effect _ _ _ _ _ _ _ Hl Hstep)
    as (extra & Haddrs & [q Hlog] & [Hsame|[Hnew Hextra]]).
  - exists b, extra. rewrite Hsame, Hlog, length_app. simpl.
    repeat split; auto with lia.
  - exists (<[idx := length (addrs s)]> b), extra.
    rewrite Hnew, Hlog, Haddrs, !length_app, length_insert. simpl.
    rewrite list_lookup_insert_eq by (eapply lookup_lt_Some, Hl).
    repeat split; auto with lia.
    + intros j Hj. now apply list_lookup_insert_ne.
    + intros a' Ha'. destruct (decide (idx < length b)) as [Hlt|Hge].
      * rewrite list_lookup_insert_eq in Ha' by exact Hlt.
        injection Ha' as <-. right. destruct extra; [congruence|]. simpl. lia.
      * rewrite list_insert_ge in Ha' by lia. now left.
Qed.

Lemma validation_loop_Ok c l k : forall i s s' b,
  lists s !! l = Some b ->
  for_each (seq i k) (AddressValidationResponder.respond_step c l) s = (Ok tt, s') ->
  exists b' extra,
    lists s' !! l = Some b' /\
    addrs s' = addrs s ++ extra /\
    length (log s') = length (log s) + k /\
    length b' = length b /\
    (forall j, j < i \/ i + k <= j -> b' !! j = b !! j) /\
    (forall j a a', b !! j = Some a -> b' !! j = Some a' ->
                    a' = a \/ length (addrs s) <= a' < length (addrs s')).
Proof.
  induction k as [|k IH]; intros i s s' b Hl; simpl.
  - intros [= <-]. exists b, []. rewrite app_nil_r.
    repeat split; auto with lia. intros j a a' Ha Ha'. left. congruence.
  - intros (u & s1 & Hstep & Hrest)%bind_inv_Ok.
    destruct (validation_step_Ok _ _ _ _ _ _ _ Hl Hstep)
      as (b1 & extra1 & Hl1 & Haddrs1 & Hlog1 & Hlen1 & Hother1 & Hat1).
    destruct (IH _ _ _ _ Hl1 Hrest)
      as (b' & extra & Hl' & Haddrs' & Hlog' & Hlen' & Hother' & Hat').
    assert (Hmono : length (addrs s) <= length (addrs s1) <= length (addrs s'))
      by (rewrite Haddrs', Haddrs1, !length_app; lia).
    exists b', (extra1 ++ extra). repeat split.
    + exact Hl'.
    + now rewrite Haddrs', Haddrs1, <- app_assoc.
    + lia.
    + lia.
    + intros j Hj. rewrite Hother' by lia. apply Hother1. lia.
    + intros j a a' Ha Ha'.
      assert (exists a1, b1 !! j = Some a1) as [a1 Ha1].
      { apply lookup_lt_is_Some. rewrite Hlen1. eapply lookup_lt_Some, Ha. }
      destruct (Hat' _ _ _ Ha1 Ha') as [->|Hnew]; [|right; lia].
      destruct (decide (j = i)) as [->|Hne].
      * destruct (Hat1 _ Ha1) as [Hold|Hnew]; [left; congruence|right; lia].
      * rewrite Hother1 in Ha1 by exact Hne. left. congruence.
Qed.


Lemma scan_effect a items : forall s r s',
  CarrierRouteRetreiverResponder.scan a items s = (r, s') ->
  lists s' = lists s /\ log s' = log s /\ length (addrs s') = length (addrs s).
Proof.
  induction items as [|x items IH]; intros s r s'; simpl.
  - now intros [= <- <-].
  - unfold bind, lift, setattr_carrier_route.
    destruct (getitem x "carrierRoute") as [v|e]; [|now intros [= <- <-]].
    destruct (truthy v); [|apply IH].
    destruct (addrs s !! a); intros [= <- <-]; cbn [addrs lists log];
      rewrite ?length_insert; auto.
Qed.

Lemma carrier_step_effect c a s r s' :
  CarrierRouteRetreiverResponder.respond_step c a s = (r, s') ->
  lists s' = lists s /\ length (addrs s') = length (addrs s).
Proof.
  unfold CarrierRouteRetreiverResponder.respond_step, load, api_post, call,
    bind, lift.
  destruct (addrs s !! a) as [o|]; [|now intros [= <- <-]].
  destruct (client_post c _ _) as [resp|e]; [|now intros [= <- <-]].
  destruct (getitem resp "addressList") as [al|e]; [|now intros [= <- <-]].
  destruct (py_iter al) as [items|e]; [|now intros [= <- <-]].
  intros (-> & _ & ->)%scan_effect. auto.
Qed.

Lemma carrier_loop_effect c batch : forall s r s',
  for_each batch (CarrierRouteRetreiverResponder.respond_step c) s = (r, s') ->
  lists s' = lists s /\ length (addrs s') = length (addrs s).
Proof.
  induction batch as [|a batch IH]; intros s r s'; simpl.
  - now intros [= <- <-].
  - unfold bind.
    destruct (CarrierRouteRetreiverResponder.respond_step c a s) as [[u|e] s1] eqn:E;
      apply carrier_step_effect in E as [E1 E2].
    + intros [-> ->]%IH. auto.
    + now intros [= <- <-].
Qed.


Lemma for_each_app_inv_Ok {A} (xs ys : list A) (body : A -> M unit) s s' :
  for_each (xs ++ ys) body s = (Ok tt, s') ->
  exists s1, for_each xs body s = (Ok tt, s1) /\ for_each ys body s1 = (Ok tt, s').
Proof.
  rewrite for_each_app. intros ([] & s1 & Hxs & Hys)%bind_inv_Ok. now exists s1.
Qed.

(** The stages are their loops: [respond] runs [respond_step] on the
    indices, respectively on the entries, of the batch, in order. *)
Lemma validation_respond_steps c l s batch :
  lists s !! l = Some batch ->
  AddressValidationResponder.respond c l s
  = (for_each (seq 0 (length batch)) (AddressValidationResponder.respond_step c l) ;;;
     ret l) s.
Proof.
  intros Hl. unfold AddressValidationResponder.respond, list_len, list_items.
  unfold bind at 1 2. now rewrite Hl.
Qed.

Lemma carrier_respond_steps c l s batch :
  lists s !! l = Some batch ->
  CarrierRouteRetreiverResponder.respond c l s
  = (for_each batch (CarrierRouteRetreiverResponder.respond_step c) ;;; ret l) s.
Proof.
  intros Hl. unfold CarrierRouteRetreiverResponder.respond, list_items.
  unfold bind at 1. now rewrite Hl.
Qed.

(** In a run of the validation stage that returns, the entry at [idx] is
    handled by one step, which finds there what the input had, and what
    that step leaves at [idx] is what the stage returns at [idx]. *)
Lemma validation_respond_entry c l s l' s' batch idx :
  lists s !! l = Some batch ->
  idx < length batch ->
  AddressValidationResponder.respond c l s = (Ok l', s') ->
  exists s1 s2,
    for_each (seq 0 idx) (AddressValidationResponder.respond_step c l) s = (Ok tt, s1) /\
    AddressValidationResponder.respond_step c l idx s1 = (Ok tt, s2) /\
    (forall a o, entry s l idx = Some (a, o) -> entry s1 l idx = Some (a, o)) /\
    (forall a o, entry s2 l idx = Some (a, o) -> entry s' l idx = Some (a, o)).
Proof.
  intros Hl Hidx. rewrite (validation_respond_steps _ _ _ _ Hl).
  intros ([] & s3 & Hloop & [= <- <-])%bind_inv_Ok.
  replace (length batch) with (idx + S (length batch - S idx)) in Hloop by lia.
  rewrite seq_app in Hloop. simpl in Hloop.
  apply for_each_app_inv_Ok in Hloop as (s1 & Hpre & Hrest).
  simpl in Hrest. apply bind_inv_Ok in Hrest as ([] & s2 & Hstep & Hpost).
  exists s1, s2. repeat split; [exact Hpre|exact Hstep| |].
  - destruct (validation_loop_Ok _ _ _ _ _ _ _ Hl Hpre)
      as (b1 & extra & Hl1 & Haddrs & _ & _ & Hother & _).
    intros a o (b & Hb & Hi & Ha)%entry_Some.
    assert (b = batch) as -> by congruence.
    unfold entry. rewrite Hl1, Hother, Hi, Haddrs by lia.
    now rewrite (lookup_app_l_Some _ _ _ _ Ha).
  - intros a o (b2 & Hl2 & Hi & Ha)%entry_Some.
    destruct (validation_loop_Ok _ _ _ _ _ _ _ Hl2 Hpost)
      as (b' & extra & Hl' & Haddrs & _ & _ & Hother & _).
    unfold entry. rewrite Hl', Hother, Hi, Haddrs by lia.
    now rewrite (lookup_app_l_Some _ _ _ _ Ha).
Qed.

Lemma aligned_refl s batch : aligned s s batch batch.
Proof.
  repeat split; auto. intros i a a' Ha Ha'. left. congruence.
Qed.

Lemma aligned_trans s s1 s2 b b1 b2 :
  aligned s s1 b b1 -> aligned s1 s2 b1 b2 -> aligned s s2 b b2.
Proof.
  intros (Hmono1 & Hlen1 & Hat1) (Hmono2 & Hlen2 & Hat2).
  repeat split; [lia|congruence|].
  intros i a a2 Ha Ha2.
  assert (exists a1, b1 !! i = Some a1) as [a1 Ha1].
  { apply lookup_lt_is_Some. rewrite Hlen1. eapply lookup_lt_Some, Ha. }
  destruct (Hat2 _ _ _ Ha1 Ha2) as [->|Hnew]; [|right; lia].
  destruct (Hat1 _ _ _ Ha Ha1) as [->|Hnew]; [now left|right; lia].
Qed.

Lemma validation_keeps_batch c :
  keeps_batch (AddressValidationResponder.respond c).
Proof.
  intros l s l' s' batch Hl.
  unfold AddressValidationResponder.respond, list_len, list_items.
  unfold bind at 1 2. rewrite Hl. unfold ret at 1.
  intros (u & s1 & Hloop & [= <- <-])%bind_inv_Ok. destruct u.
  destruct (validation_loop_Ok _ _ _ _ _ _ _ Hl Hloop)
    as (b' & extra & Hl' & Haddrs & _ & Hlen & _ & Hat).
  split; [reflexivity|]. exists b'. split; [exact Hl'|].
  repeat split; [rewrite Haddrs, length_app; lia|exact Hlen|exact Hat].
Qed.

Lemma carrier_keeps_batch c :
  keeps_batch (CarrierRouteRetreiverResponder.respond c).
Proof.
  intros l s l' s' batch Hl.
  unfold CarrierRouteRetreiverResponder.respond, list_items.
  unfold bind at 1. rewrite Hl.
  intros (u & s1 & Hloop & [= <- <-])%bind_inv_Ok.
  apply carrier_loop_effect in Hloop as [Hlists Haddrs].
  split; [reflexivity|]. exists batch. rewrite Hlists. split; [exact Hl|].
  repeat split; [lia|]. intros i a a' Ha Ha'. left. congruence.
Qed.

Lemma lookup_stage_keeps_batch stage : lookup_stage stage -> keeps_batch stage.
Proof.
  intros [c|c]; [apply validation_keeps_batch|apply carrier_keeps_batch].
Qed.

Lemma respond_loop_keeps_batch stages l : forall r s r' s' batch,
  Forall keeps_batch stages ->
  lists s !! l = Some batch ->
  ResponderPipeline.respond_loop stages l r s = (Ok r', s') ->
  (r' = r \/ r' = Some l) /\
  (stages <> [] -> r' = Some l) /\
  exists batch', lists s' !! l = Some batch' /\ aligned s s' batch batch'.
Proof.
  induction stages as [|stage stages IH]; intros r s r' s' batch Hall Hl; simpl.
  - intros [= <- <-]. repeat split; [now left|congruence|].
    exists batch. split; [exact Hl|apply aligned_refl].
  - apply Forall_cons in Hall as [Hstage Hall].
    intros (x & s1 & Hx & Hrest)%bind_inv_Ok.
    destruct (Hstage _ _ _ _ _ Hl Hx) as (-> & b1 & Hl1 & Hal1).
    destruct (IH _ _ _ _ _ Hall Hl1 Hrest) as (Hr' & _ & b' & Hl' & Hal').
    assert (r' = Some l) as -> by (destruct Hr'; congruence).
    repeat split; [now right|].
    exists b'. split; [exact Hl'|eapply aligned_trans; eauto].
Qed.

Lemma pipeline_keeps_batch stages :
  stages <> [] -> Forall keeps_batch stages ->
  keeps_batch (ResponderPipeline.respond (ResponderPipeline.mk stages)).
Proof.
  intros Hne Hall l s l' s' batch Hl.
  unfold ResponderPipeline.respond. cbn [ResponderPipeline.responders].
  intros (r' & s1 & Hloop & Hret)%bind_inv_Ok.
  destruct (respond_loop_keeps_batch _ _ _ _ _ _ _ Hall Hl Hloop)
    as (_ & Hr' & b' & Hl' & Hal').
  rewrite (Hr' Hne) in Hret. injection Hret as <- <-.
  split; [reflexivity|]. now exists b'.
Qed.

(** The validation stage, the carrier-route stage and a pipeline of such
    stages return the list object they were given, and the batch it holds
    then has the length of the input batch and, at each index, the object
    the input had there or an object created during the run. *)
Lemma batch_stage_aligned stage l s l' s' batch :
  batch_stage stage ->
  lists s !! l = Some batch ->
  stage l s = (Ok l', s') ->
  l' = l /\
  exists batch',
    lists s' !! l' = Some batch' /\
    length batch' = length batch /\
    forall i a,
      batch !! i = Some a ->
      exists a',
        batch' !! i = Some a' /\
        (a' = a \/ length (addrs s) <= a' < length (addrs s')).
Proof.
  intros Hstage Hl Hrun.
  assert (Hkeeps : keeps_batch stage).
  { destruct Hstage as [stage Hstage|stages Hne Hall].
    - now apply lookup_stage_keeps_batch.
    - apply pipeline_keeps_batch; [exact Hne|].
      eapply Forall_impl; [exact Hall|]. apply lookup_stage_keeps_batch. }
  destruct (Hkeeps _ _ _ _ _ Hl Hrun) as (-> & batch' & Hl' & _ & Hlen & Hat).
  split; [reflexivity|]. exists batch'. repeat split; [exact Hl'|exact Hlen|].
  intros i a Ha.
  assert (exists a', batch' !! i = Some a') as [a' Ha'].
  { apply lookup_lt_is_Some. rewrite Hlen. eapply lookup_lt_Some, Ha. }
  exists a'. split; [exact Ha'|eauto].
Qed.


Lemma seq_split_at n pre x post :
  seq 0 n = pre ++ x :: post ->
  pre = seq 0 x /\ x = length pre /\ x < n.
Proof.
  intros E.
  assert (Hx : seq 0 n !! length pre = Some x)
    by (rewrite E; now apply list_lookup_middle).
  apply lookup_seq in Hx as [Hx Hlt]. simpl in Hx. subst x.
  repeat split; [|exact Hlt].
  assert (Hp : pre = take (length pre) (seq 0 n))
    by (now rewrite E, take_app_length).
  rewrite take_seq, Nat.min_l in Hp by lia. exact Hp.
Qed.

(** C8, as the code has it: when the validation stage raises, it is at one
    address [k] of the batch, with the error of that address's step and the
    store as that step left it: the addresses before [k] were processed,
    one lookup was made for each address up to [k] and none after, and
    nothing is undone.  The entries at [k] and after are the input's; the
    entries before [k] may have been replaced. *)
Theorem validation_abort c l s batch e s' :
  lists s !! l = Some batch ->
  (forall i a, batch !! i = Some a -> a < length (addrs s)) ->
  AddressValidationResponder.respond c l s = (Raise e, s') ->
  exists k sk batch' extra,
    k < length batch /\
    for_each (seq 0 k) (AddressValidationResponder.respond_step c l) s = (Ok tt, sk) /\
    AddressValidationResponder.respond_step c l k sk = (Raise e, s') /\
    length (log s') = length (log s) + k + 1 /\
    addrs s' = addrs s ++ extra /\
    lists s' !! l = Some batch' /\
    length batch' = length batch /\
    (forall i, k <= i -> batch' !! i = batch !! i).
Proof.
  intros Hl Hwf.
  unfold AddressValidationResponder.respond, list_len, list_items.
  unfold bind at 1 2. rewrite Hl. unfold ret at 1.
  intros [Hloop|(u & s1 & _ & [=])]%bind_inv_Raise.
  apply for_each_inv_Raise in Hloop as (pre & k & post & sk & Eseq & Hpre & Hk).
  apply seq_split_at in Eseq as (-> & _ & Hlt).
  destruct (validation_loop_Ok _ _ _ _ _ _ _ Hl Hpre)
    as (bk & extra1 & Hlk & Haddrs1 & Hlog1 & Hlen1 & Hother1 & _).
  destruct (validation_step_effect _ _ _ _ _ _ _ Hlk Hk)
    as (extra2 & Haddrs2 & Hlists2 & Hlog2).
  exists k, sk, bk, (extra1 ++ extra2). repeat split.
  - exact Hlt.
  - exact Hpre.
  - exact Hk.
  - destruct Hlog2 as [[q ->]|[_ Hdangling]].
    + rewrite length_app. simpl. lia.
    + exfalso.
      destruct (lookup_lt_is_Some_2 batch k Hlt) as [a Ha].
      assert (Hak : bk !! k = Some a) by (rewrite Hother1 by lia; exact Ha).
      apply Hdangling in Hak. apply lookup_ge_None in Hak.
      apply Hwf in Ha. rewrite Haddrs1, length_app in Hak. lia.
  - now rewrite Haddrs2, Haddrs1, <- app_assoc.
  - now rewrite Hlists2.
  - exact Hlen1.
  - intros i Hi. apply Hother1. lia.
Qed.

End stage_effects.

(** * The statements on the sample data *)

Section samples.

#[local] Existing Instance sample_env.

(** C9: for an address without apartment number the request of the
    carrier-route stage carries the text [None] as its second address line,
    not an empty value. *)
Theorem carrier_request_absent_apartment :
  Address.apt_number elm_st = PNone /\
  log (snd (CarrierRouteRetreiverResponder.respond_step
              (scripted [Ok (routes_answer [])]) 0 (one_address elm_st)))
  = [post_request CARRIER_ROUTE_ENDPOINT HEADERS
       [("address1", "12 Elm St"); ("address2", "None");
        ("city", "Springfield"); ("state", "IL"); ("urbanCode", "");
        ("zip", "62704")]].
Proof. split; reflexivity. Qed.

Lemma pipeline_respond_threads_sample :
  ResponderPipeline.respond (ResponderPipeline.mk two_stages) 0 two_addresses
  = threaded two_stages 0 two_addresses.
Proof.
  apply (proj2 (pipeline_respond_threads _ _ 0 two_addresses)).
  repeat constructor.
  - apply validation_returns_its_input.
  - apply carrier_returns_its_input.
Defined.

(** A stage that returns a copy, then a stage that returns what it is
    given: the second stage is given the pipeline's batch, list 0, and not
    the copy, list 1, which threading would give it. *)
Lemma pipeline_second_stage_gets_the_input :
  ResponderPipeline.respond (ResponderPipeline.mk [copying; passing]) 0
    (one_address main_st)
  = (Ok 0, {| addrs := [main_st]; lists := [[0]; [0]]; log := [] |}) /\
  threaded [copying; passing] 0 (one_address main_st)
  = (Ok 1, {| addrs := [main_st]; lists := [[0]; [0]]; log := [] |}).
Proof. split; reflexivity. Qed.

Lemma validation_abort_keeps_replacement :
  lists two_addresses !! 0 = Some [0; 1] /\
  fst (AddressValidationResponder.respond (scripted failing_script) 0 two_addresses)
  = Raise (KeyError (PStr "candidates")) /\
  lists (snd (AddressValidationResponder.respond (scripted failing_script) 0
                two_addresses)) !! 0 = Some [2; 1] /\
  addrs (snd (AddressValidationResponder.respond (scripted failing_script) 0
                two_addresses)) !! 2 = Some main_ave.
Proof. repeat split; vm_compute; reflexivity. Qed.

Lemma validation_abort_sample :
  exists k,
    k < 2 /\
    length (log (snd (AddressValidationResponder.respond
                        (scripted failing_script) 0 two_addresses)))
    = 0 + k + 1.
Proof.
  destruct (validation_abort (scripted failing_script) 0 two_addresses [0; 1]
              (KeyError (PStr "candidates"))
              (snd (AddressValidationResponder.respond (scripted failing_script) 0
                      two_addresses)))
    as (k & _ & _ & _ & Hk & _ & _ & Hlog & _).
  - reflexivity.
  - intros [|[|i]] a [= <-]; simpl; lia.
  - vm_compute. reflexivity.
  - exists k. split; [exact Hk|exact Hlog].
Defined.

(** The example of the specification, end to end: the lookup confirms the
    address, which is kept, and the route lookup gives it its route. *)
Example confirmed_then_routed :
  let c := scripted [Ok (candidates_answer [main_st_attributes]);
                     Ok (routes_answer [PStr "C001"])] in
  let p :=
    ResponderPipeline.add_last
      (ResponderPipeline.add_last ResponderPipeline.init
         (AddressValidationResponder.respond c))
      (CarrierRouteRetreiverResponder.respond c) in
  fst (ResponderPipeline.respond p 0 (one_address main_st)) = Ok 0 /\
  entry (snd (ResponderPipeline.respond p 0 (one_address main_st))) 0 0
  = Some (0, main_st_routed).
Proof. split; vm_compute; reflexivity. Qed.

Example py_str_values :
  py_str PNone = "None" /\ py_str (PInt (-15)) = "-15" /\
  py_str (PInt 0) = "0" /\ py_str (PBool true) = "True" /\
  py_str (PStr "Elm St") = "Elm St".
Proof. repeat split. Qed.

Example py_eqb_values :
  py_eqb (PInt 1) (PBool true) = true /\
  py_eqb (PStr "1") (PInt 1) = false /\
  py_eqb (PDict [("a", PInt 1); ("b", PList [PNone])])
         (PDict [("b", PList [PNone]); ("a", PInt 1)]) = true.
Proof. repeat split. Qed.

End samples.

(** * Further properties of the stages *)

Section validation_runs.
Context `{Env}.
Variable c : ApiClient.

Lemma validation_step_request l idx s u s' batch a o :
  lists s !! l = Some batch ->
  batch !! idx = Some a ->
  addrs s !! a = Some o ->
  AddressValidationResponder.respond_step c l idx s = (Ok u, s') ->
  log s' = log s ++ [lookup_request o].
Proof.
  intros Hl Hi Ha.
  unfold AddressValidationResponder.respond_step, AddressValidationResponder.validate,
    AddressBuilder.build, list_getitem, list_items, list_setitem, load, new_address,
    api_get, call, bind, lift, ret, raise.
  rewrite Hl, Hi, Ha. fold (lookup_request o).
  repeat (case_match; simplify_eq; cbn [addrs lists log fst snd negb] in * ).
  all: intros ?; simplify_eq; reflexivity.
Qed.

Lemma validation_loop_requests l k : forall i s s' batch objs,
  lists s !! l = Some batch ->
  objects s (take k (drop i batch)) objs ->
  length batch >= i + k ->
  for_each (seq i k) (AddressValidationResponder.respond_step c l) s = (Ok tt, s') ->
  log s' = log s ++ map lookup_request objs.
Proof.
  induction k as [|k IH]; intros i s s' batch objs Hl Hobjs Hlen; simpl.
  - intros [= <-]. apply Forall2_nil_inv_l in Hobjs as ->.
    simpl. now rewrite app_nil_r.
  - intros (u & s1 & Hstep & Hrest)%bind_inv_Ok.
    destruct (lookup_lt_is_Some_2 batch i) as [a Ha]; [lia|].
    rewrite (drop_S _ _ _ Ha) in Hobjs. simpl in Hobjs.
    apply Forall2_cons_inv_l in Hobjs as (o & objs' & Ho & Hobjs' & ->).
    pose proof (validation_step_request _ _ _ _ _ _ _ _ Hl Ha Ho Hstep) as Hlog1.
    destruct (validation_step_Ok _ _ _ _ _ _ _ Hl Hstep)
      as (b1 & extra & Hl1 & Haddrs & _ & Hlen1 & Hother & _).
    rewrite (IH (S i) s1 s' b1 objs' Hl1); [| |lia|exact Hrest].
    + rewrite Hlog1. simpl. now rewrite <- app_assoc.
    + assert (Hdrop : drop (S i) b1 = drop (S i) batch).
      { apply list_eq. intros j. rewrite !lookup_drop. apply Hother. lia. }
      rewrite Hdrop. unfold objects in *.
      eapply Forall2_impl; [exact Hobjs'|].
      intros a' o' Ha'. cbv beta in Ha'. rewrite Haddrs.
      now apply lookup_app_l_Some.
Qed.

(** X1: on a run of the validation stage that returns, one lookup was made
    for each entry of the batch, in the order of the batch, each with the
    fields the entry's object had when the stage was called. *)
Theorem validation_requests l s l' s' batch objs :
  lists s !! l = Some batch ->
  objects s batch objs ->
  AddressValidationResponder.respond c l s = (Ok l', s') ->
  log s' = log s ++ map lookup_request objs.
Proof.
  intros Hl Hobjs. rewrite (validation_respond_steps _ _ _ _ Hl).
  intros ([] & s1 & Hloop & [= <- <-])%bind_inv_Ok.
  apply (validation_loop_requests l (length batch) 0 s s1 batch objs Hl);
    [|simpl; lia|exact Hloop].
  now rewrite drop_0, firstn_all.
Qed.


Lemma only_list_changed_refl l s : only_list_changed l s s.
Proof.
  repeat split; [exists []; now rewrite app_nil_r|now eauto].
Qed.

Lemma only_list_changed_trans l s s1 s2 :
  only_list_changed l s s1 -> only_list_changed l s1 s2 ->
  only_list_changed l s s2.
Proof.
  intros ([e1 Ha1] & Ho1 & Hl1) ([e2 Ha2] & Ho2 & Hl2). repeat split.
  - exists (e1 ++ e2). now rewrite Ha2, Ha1, <- app_assoc.
  - intros l2 Hne. now rewrite Ho2, Ho1.
  - intros b Hb. destruct (Hl1 _ Hb) as (b1 & Hb1 & Hlen1).
    destruct (Hl2 _ Hb1) as (b2 & Hb2 & Hlen2). exists b2. split; [exact Hb2|lia].
Qed.

Lemma validation_step_frame l idx s r s' batch :
  lists s !! l = Some batch ->
  AddressValidationResponder.respond_step c l idx s = (r, s') ->
  only_list_changed l s s'.
Proof.
  intros Hl Hstep.
  destruct (validation_step_effect _ _ _ _ _ _ _ Hl Hstep) as (extra & Haddrs & Hr).
  assert (Hlists : lists s' = lists s \/
                   lists s' = <[l := <[idx := length (addrs s)]> batch]> (lists s)).
  { destruct r; [destruct Hr as (_ & [?|[? _]]); auto|destruct Hr; auto]. }
  split; [now exists extra|]. destruct Hlists as [->| ->].
  - split; [reflexivity|]. intros b Hb. now exists b.
  - split.
    + intros l2 Hne. now apply list_lookup_insert_ne.
    + intros b Hb. assert (b = batch) as -> by congruence.
      exists (<[idx := length (addrs s)]> batch). split.
      * apply list_lookup_insert_eq. eapply lookup_lt_Some, Hl.
      * apply length_insert.
Qed.

Lemma validation_loop_frame l items : forall s r s' batch,
  lists s !! l = Some batch ->
  for_each items (AddressValidationResponder.respond_step c l) s = (r, s') ->
  only_list_changed l s s'.
Proof.
  induction items as [|idx items IH]; intros s r s' batch Hl; simpl.
  - intros [= <- <-]. apply only_list_changed_refl.
  - unfold bind.
    destruct (AddressValidationResponder.respond_step c l idx s) as [[u|e] s1] eqn:E;
      pose proof (validation_step_frame _ _ _ _ _ _ Hl E) as Hframe.
    + intros Hrest. destruct (proj2 (proj2 Hframe) _ Hl) as (b1 & Hl1 & _).
      exact (only_list_changed_trans _ _ _ _ Hframe (IH _ _ _ _ Hl1 Hrest)).
    + now intros [= <- <-].
Qed.

(** X2: whether it returns or raises, the validation stage changes no
    address object that existed when it was called (it only creates
    objects), keeps the length of the batch and leaves every other list as
    it was. *)
Theorem validation_only_changes_its_list l s r s' batch :
  lists s !! l = Some batch ->
  AddressValidationResponder.respond c l s = (r, s') ->
  only_list_changed l s s'.
Proof.
  intros Hl. rewrite (validation_respond_steps _ _ _ _ Hl).
  unfold bind.
  destruct (for_each _ _ s) as [[u|e] s1] eqn:E;
    intros [= <- <-]; eapply validation_loop_frame; eauto.
Qed.

(** X3: the stage stops at the first address whose step raises: when the
    steps of the addresses before [k] return and the step of address [k]
    raises [e], the stage raises [e] and the store is the one that step
    left; the addresses after [k] are not looked up. *)
Theorem validation_fails_fast l s batch k sk e s' :
  lists s !! l = Some batch ->
  k < length batch ->
  for_each (seq 0 k) (AddressValidationResponder.respond_step c l) s = (Ok tt, sk) ->
  AddressValidationResponder.respond_step c l k sk = (Raise e, s') ->
  AddressValidationResponder.respond c l s = (Raise e, s').
Proof.
  intros Hl Hk Hpre Hstep. rewrite (validation_respond_steps _ _ _ _ Hl).
  replace (length batch) with (k + S (length batch - S k)) by lia.
  rewrite seq_app. simpl seq.
  apply bind_Raise. eapply for_each_snoc_Raise; eauto.
Qed.


Ltac run_validation_step Hl Hi Ha o s :=
  unfold AddressValidationResponder.respond_step, list_getitem, list_items,
    load, api_get, call, bind, lift, ret;
  rewrite Hl, Hi, Ha; fold (lookup_request o); fold (logged s (lookup_request o)).

(** X4: an error of the lookup call itself is the error of the step: it is
    raised as it is, after the one request, and nothing else changes. *)
Theorem validation_lookup_error s l idx a o e :
  entry s l idx = Some (a, o) ->
  client_get c (log s) (lookup_request o) = Raise e ->
  AddressValidationResponder.respond_step c l idx s
  = (Raise e, logged s (lookup_request o)).
Proof.
  intros (batch & Hl & Hi & Ha)%entry_Some Hget.
  run_validation_step Hl Hi Ha o s. now rewrite Hget.
Qed.

(** X5: an answer from which no list of candidates can be read makes the
    step raise: [TypeError] when the answer is not an object or
    [candidates] has no length, [KeyError] on [candidates] when the key is
    absent; the batch and the addresses are as they were. *)
Theorem validation_malformed_answer s l idx a o resp e :
  entry s l idx = Some (a, o) ->
  client_get c (log s) (lookup_request o) = Ok resp ->
  no_candidates_in resp e ->
  AddressValidationResponder.respond_step c l idx s
  = (Raise e, logged s (lookup_request o)).
Proof.
  intros (batch & Hl & Hi & Ha)%entry_Some Hget Hbad.
  run_validation_step Hl Hi Ha o s. rewrite Hget.
  destruct Hbad as [resp Hno|kvs Hnone|kvs v Hsome Hlen]; simpl.
  - destruct resp; try reflexivity. now destruct (Hno kvs).
  - now rewrite Hnone.
  - now rewrite Hsome, Hlen.
Qed.

(** X6: a first candidate that is not truthy (an empty object, [null], an
    empty string, zero) counts as no candidate: its attributes are not
    read, nothing is built and the entry is kept. *)
Theorem validation_falsy_candidate s l idx a o resp candidates cand :
  entry s l idx = Some (a, o) ->
  client_get c (log s) (lookup_request o) = Ok resp ->
  getitem resp "candidates" = Ok candidates ->
  getitem0 candidates = Ok cand ->
  truthy cand = false ->
  AddressValidationResponder.respond_step c l idx s
  = (Ok tt, logged s (lookup_request o)).
Proof.
  intros (batch & Hl & Hi & Ha)%entry_Some Hget Hcands Hfirst Hfalsy.
  destruct (getitem0_len _ _ Hfirst) as [n Hlen].
  run_validation_step Hl Hi Ha o s. rewrite Hget, Hcands, Hlen, Hfirst.
  cbn [Nat.eqb]. cbv beta iota.
  unfold AddressValidationResponder.validate, ret. now rewrite Hfalsy.
Qed.

Lemma candidate_first_missing cand kvs pre k post :
  getitem cand "attributes" = Ok (PDict kvs) ->
  candidate_attributes = pre ++ k :: post ->
  Forall (fun k' => is_Some (dict_get kvs k')) pre ->
  dict_get kvs k = None ->
  AddressValidationResponder.candidate cand = Raise (KeyError (PStr k)).
Proof.
  intros Hattrs Hsplit Hpre Hk.
  unfold AddressValidationResponder.candidate. rewrite Hattrs.
  unfold candidate_attributes in Hsplit.
  repeat (destruct pre as [|? pre];
          [injection Hsplit as <- <-
          |injection Hsplit as <- Hsplit;
           apply Forall_cons in Hpre as [[? Hin] Hpre]; simpl; rewrite Hin;
           clear Hin]).
  all: try (simpl; now rewrite Hk).
  destruct pre; discriminate.
Qed.

(** X7: when the first candidate lacks one of the attributes [validate]
    reads, the step raises [KeyError] on the first of them that is absent,
    in the order AddNum, StName, StType, SubAddr, City, RegionAbbr, Postal;
    no address is built and the batch is as it was. *)
Theorem validation_missing_attribute s l idx a o resp candidates cand kvs
    pre k post :
  entry s l idx = Some (a, o) ->
  client_get c (log s) (lookup_request o) = Ok resp ->
  getitem resp "candidates" = Ok candidates ->
  getitem0 candidates = Ok cand ->
  getitem cand "attributes" = Ok (PDict kvs) ->
  candidate_attributes = pre ++ k :: post ->
  Forall (fun k' => is_Some (dict_get kvs k')) pre ->
  dict_get kvs k = None ->
  AddressValidationResponder.respond_step c l idx s
  = (Raise (KeyError (PStr k)), logged s (lookup_request o)).
Proof.
  intros (batch & Hl & Hi & Ha)%entry_Some Hget Hcands Hfirst Hattrs
    Hsplit Hpre Hk.
  destruct (getitem0_len _ _ Hfirst) as [n Hlen].
  pose proof (candidate_first_missing _ _ _ _ _ Hattrs Hsplit Hpre Hk) as Hcand.
  run_validation_step Hl Hi Ha o s. rewrite Hget, Hcands, Hlen, Hfirst.
  cbn [Nat.eqb]. cbv beta iota.
  unfold AddressValidationResponder.validate, bind, lift.
  now rewrite (getitem_truthy _ _ _ Hattrs), Hcand.
Qed.

End validation_runs.

Section carrier_runs.
Context `{Env}.
Variable c : ApiClient.

Lemma only_routes_changed_refl members s : only_routes_changed members s s.
Proof. repeat split. intros a o Ha. now exists o. Qed.

Lemma only_routes_changed_trans members s s1 s2 :
  only_routes_changed members s s1 -> only_routes_changed members s1 s2 ->
  only_routes_changed members s s2.
Proof.
  intros (Hl1 & Hn1 & Ho1) (Hl2 & Hn2 & Ho2).
  repeat split; [congruence|congruence|].
  intros a o Ha. destruct (Ho1 _ _ Ha) as (o1 & Ha1 & Hc1 & Hs1).
  destruct (Ho2 _ _ Ha1) as (o2 & Ha2 & Hc2 & Hs2).
  exists o2. repeat split; [exact Ha2|congruence|].
  intros Hnot. rewrite (Hs2 Hnot). now apply Hs1.
Qed.

Lemma only_routes_changed_member a members s s' :
  a ∈ members -> only_routes_changed [a] s s' ->
  only_routes_changed members s s'.
Proof.
  intros Hin (Hl & Hn & Ho). repeat split; [exact Hl|exact Hn|].
  intros b o Hb. destruct (Ho _ _ Hb) as (o' & Hb' & Hc & Hs).
  exists o'. repeat split; [exact Hb'|exact Hc|].
  intros Hnot. apply Hs. intros ->%list_elem_of_singleton. contradiction.
Qed.

Lemma setattr_carrier_route_frame a v s r s' :
  setattr_carrier_route a v s = (r, s') ->
  log s' = log s /\ only_routes_changed [a] s s'.
Proof.
  unfold setattr_carrier_route.
  destruct (addrs s !! a) as [o|] eqn:Ha; intros [= <- <-];
    [|split; [reflexivity|apply only_routes_changed_refl]].
  split; [reflexivity|]. repeat split; cbn [addrs lists].
  - apply length_insert.
  - intros b ob Hb. destruct (decide (b = a)) as [->|Hne].
    + exists (Address.set_carrier_route o v).
      rewrite list_lookup_insert_eq by (eapply lookup_lt_Some, Ha).
      assert (ob = o) as -> by congruence.
      repeat split. intros Hnot. destruct Hnot. now apply list_elem_of_singleton.
    + exists ob. rewrite list_lookup_insert_ne by congruence. auto.
Qed.

Lemma scan_frame a items : forall s r s',
  CarrierRouteRetreiverResponder.scan a items s = (r, s') ->
  log s' = log s /\ only_routes_changed [a] s s'.
Proof.
  induction items as [|x items IH]; intros s r s'; simpl.
  - intros [= <- <-]. split; [reflexivity|apply only_routes_changed_refl].
  - unfold bind, lift.
    destruct (getitem x "carrierRoute") as [v|e];
      [|intros [= <- <-]; split; [reflexivity|apply only_routes_changed_refl]].
    destruct (truthy v); [apply setattr_carrier_route_frame|apply IH].
Qed.

Lemma carrier_step_frame a s r s' :
  CarrierRouteRetreiverResponder.respond_step c a s = (r, s') ->
  only_routes_changed [a] s s' /\
  forall o, addrs s !! a = Some o -> log s' = log s ++ [route_request o].
Proof.
  unfold CarrierRouteRetreiverResponder.respond_step, load, api_post, call,
    bind, lift.
  destruct (addrs s !! a) as [o|] eqn:Ha;
    [|intros [= <- <-]; split; [apply only_routes_changed_refl|discriminate]].
  fold (route_request o). fold (logged s (route_request o)).
  assert (Hlogged : only_routes_changed [a] s (logged s (route_request o))).
  { repeat split. intros b ob Hb. now exists ob. }
  destruct (client_post c _ _) as [resp|e];
    [|intros [= <- <-]; split; [exact Hlogged|now intros ? [= <-]]].
  destruct (getitem resp "addressList") as [al|e];
    [|intros [= <- <-]; split; [exact Hlogged|now intros ? [= <-]]].
  destruct (py_iter al) as [items|e];
    [|intros [= <- <-]; split; [exact Hlogged|now intros ? [= <-]]].
  intros [Hlog Hscan]%scan_frame. split.
  - eapply only_routes_changed_trans; [exact Hlogged|exact Hscan].
  - intros ? [= <-]. exact Hlog.
Qed.

Lemma carrier_loop_frame batch : forall members s r s',
  batch ⊆ members ->
  for_each batch (CarrierRouteRetreiverResponder.respond_step c) s = (r, s') ->
  only_routes_changed members s s'.
Proof.
  induction batch as [|a batch IH]; intros members s r s' Hsub; simpl.
  - intros [= <- <-]. apply only_routes_changed_refl.
  - unfold bind.
    destruct (CarrierRouteRetreiverResponder.respond_step c a s) as [[u|e] s1] eqn:E;
      apply carrier_step_frame in E as [E _];
      apply (only_routes_changed_member a members) in E;
      try (apply Hsub; now left).
    + intros Hrest. eapply only_routes_changed_trans; [exact E|].
      eapply IH; [|exact Hrest]. intros b Hb. apply Hsub. now right.
    + now intros [= <- <-].
Qed.

(** X8: whether it returns or raises, the carrier-route stage leaves every
    list as it was, creates no object and changes no core field of any
    address; an address that is not in the batch is not changed at all. *)
Theorem carrier_only_changes_routes l s r s' batch :
  lists s !! l = Some batch ->
  CarrierRouteRetreiverResponder.respond c l s = (r, s') ->
  only_routes_changed batch s s'.
Proof.
  intros Hl. rewrite (carrier_respond_steps _ _ _ _ Hl). unfold bind.
  destruct (for_each _ _ s) as [[u|e] s1] eqn:E;
    intros [= <- <-]; eapply carrier_loop_frame; eauto.
Qed.


Lemma route_request_core o o' :
  Address.core o' = Address.core o -> route_request o' = route_request o.
Proof.
  unfold Address.core. intros [= Hnum Hname Hapt Hcity Hstate Hzip].
  unfold route_request, CarrierRouteRetreiverResponder.data.
  now rewrite Hnum, Hname, Hapt, Hcity, Hstate, Hzip.
Qed.

Lemma objects_up_to_route_exact s batch objs :
  objects s batch objs -> objects_up_to_route s batch objs.
Proof.
  intros Hobjs. eapply Forall2_impl; [exact Hobjs|].
  intros a o Ha. now exists o.
Qed.

Lemma objects_up_to_route_changed members s s' batch objs :
  only_routes_changed members s s' ->
  objects_up_to_route s batch objs -> objects_up_to_route s' batch objs.
Proof.
  intros (_ & _ & Ho) Hobjs. eapply Forall2_impl; [exact Hobjs|].
  intros a o (o1 & Ha & Hc).
  destruct (Ho _ _ Ha) as (o2 & Ha2 & Hc2 & _). exists o2. split; congruence.
Qed.

Lemma carrier_loop_requests batch : forall s s' objs,
  objects_up_to_route s batch objs ->
  for_each batch (CarrierRouteRetreiverResponder.respond_step c) s = (Ok tt, s') ->
  log s' = log s ++ map route_request objs.
Proof.
  induction batch as [|a batch IH]; intros s s' objs Hobjs; simpl.
  - intros [= <-]. apply Forall2_nil_inv_l in Hobjs as ->.
    simpl. now rewrite app_nil_r.
  - apply Forall2_cons_inv_l in Hobjs as (o & objs' & (o1 & Ha & Hc) & Hobjs' & ->).
    intros (u & s1 & Hstep & Hrest)%bind_inv_Ok.
    apply carrier_step_frame in Hstep as [Hframe Hlog].
    rewrite (IH s1 s' objs'); [| |exact Hrest].
    + rewrite (Hlog _ Ha), (route_request_core _ _ Hc). simpl.
      now rewrite <- app_assoc.
    + eapply objects_up_to_route_changed; eauto.
Qed.

(** X9: on a run of the carrier-route stage that returns, one route lookup
    was made for each entry of the batch, in the order of the batch, each
    with the core fields the entry's object had when the stage was
    called. *)
Theorem carrier_requests l s l' s' batch objs :
  lists s !! l = Some batch ->
  objects s batch objs ->
  CarrierRouteRetreiverResponder.respond c l s = (Ok l', s') ->
  log s' = log s ++ map route_request objs.
Proof.
  intros Hl Hobjs. rewrite (carrier_respond_steps _ _ _ _ Hl).
  intros ([] & s1 & Hloop & [= <- <-])%bind_inv_Ok.
  eapply carrier_loop_requests; [|exact Hloop].
  now apply objects_up_to_route_exact.
Qed.

(** X10: when the carrier-route stage raises, it is at one entry [k] of the
    batch, with the error of that entry's step and the store as that step
    left it: the entries before [k] were processed and keep the routes they
    were given, and one lookup was made for each entry up to [k] and none
    after. *)
Theorem carrier_abort l s batch objs e s' :
  lists s !! l = Some batch ->
  objects s batch objs ->
  CarrierRouteRetreiverResponder.respond c l s = (Raise e, s') ->
  exists k a sk,
    batch !! k = Some a /\
    for_each (take k batch) (CarrierRouteRetreiverResponder.respond_step c) s
    = (Ok tt, sk) /\
    CarrierRouteRetreiverResponder.respond_step c a sk = (Raise e, s') /\
    log s' = log s ++ map route_request (take (S k) objs).
Proof.
  intros Hl Hobjs. rewrite (carrier_respond_steps _ _ _ _ Hl).
  intros [Hloop|(u & s1 & _ & [=])]%bind_inv_Raise.
  apply for_each_inv_Raise in Hloop as (pre & a & post & sk & -> & Hpre & Ha).
  apply objects_up_to_route_exact in Hobjs.
  apply Forall2_app_inv_l in Hobjs as (objs1 & objs2 & Hobjs1 & Hobjs2 & ->).
  apply Forall2_cons_inv_l in Hobjs2 as (o & objs3 & Ho & _ & ->).
  pose proof (Forall2_length _ _ _ Hobjs1) as Hlen.
  exists (length pre), a, sk. repeat split.
  - now apply list_lookup_middle.
  - now rewrite take_app_length.
  - exact Ha.
  - pose proof (carrier_loop_requests _ _ _ _ Hobjs1 Hpre) as Hlog.
    pose proof (carrier_loop_frame pre pre s _ sk (reflexivity _) Hpre) as Hframe.
    destruct Hframe as (_ & _ & Hsame).
    destruct Ho as (o1 & Ho1 & Hc1).
    destruct (Hsame _ _ Ho1) as (o2 & Ho2 & Hc2 & _).
    apply carrier_step_frame in Ha as [_ Hlast].
    rewrite (Hlast _ Ho2), Hlog, (route_request_core o o2) by congruence.
    rewrite Hlen.
    replace (take (S (length objs1)) (objs1 ++ o :: objs3)) with (objs1 ++ [o]).
    + now rewrite map_app, app_assoc.
    + rewrite take_app, take_ge by lia.
      replace (S (length objs1) - length objs1) with 1 by lia. reflexivity.
Qed.

(** X11: when the route lookup raises, or answers with something from
    which no list of entries can be read, the step raises (the call's own
    error, [TypeError], or [KeyError] on [addressList]) after the one
    request; no address is changed. *)
Theorem carrier_malformed_answer s a o e :
  addrs s !! a = Some o ->
  no_address_list_in (client_post c (log s) (route_request o)) e ->
  CarrierRouteRetreiverResponder.respond_step c a s
  = (Raise e, logged s (route_request o)).
Proof.
  intros Ha Hbad.
  unfold CarrierRouteRetreiverResponder.respond_step, load, api_post, call,
    bind, lift.
  rewrite Ha. fold (route_request o). fold (logged s (route_request o)).
  inversion Hbad as [e' E|resp Hno E|kvs Hnone E|kvs v Hsome Hiter E]; subst; simpl.
  - reflexivity.
  - destruct resp; try reflexivity. now destruct (Hno kvs).
  - now rewrite Hnone.
  - now rewrite Hsome, Hiter.
Qed.

Lemma getitem_Raise v k e :
  getitem v k = Raise e -> e = KeyError (PStr k) \/ e = TypeError.
Proof.
  destruct v as [| | | | |kvs]; simpl; try (intros [= <-]; now right).
  destruct (dict_get kvs k); [discriminate|]. intros [= <-]. now left.
Qed.

(** X12: an entry of the answer that has no [carrierRoute] (or is not an
    object), met before any entry with a truthy route, makes the step
    raise [KeyError] on [carrierRoute] (or [TypeError]); the address keeps
    the carrier route it had. *)
Theorem carrier_entry_without_route s a o resp address_list pre x post e :
  addrs s !! a = Some o ->
  client_post c (log s) (route_request o) = Ok resp ->
  getitem resp "addressList" = Ok address_list ->
  py_iter address_list = Ok (pre ++ x :: post) ->
  Forall no_route pre ->
  getitem x "carrierRoute" = Raise e ->
  CarrierRouteRetreiverResponder.respond_step c a s
  = (Raise e, logged s (route_request o)) /\
  (e = KeyError (PStr "carrierRoute") \/ e = TypeError).
Proof.
  intros Ha Hpost Hlist Hiter Hpre Hx. split; [|eapply getitem_Raise, Hx].
  rewrite (carrier_step_scan _ _ _ _ _ _ _ Ha Hpost Hlist Hiter).
  fold (logged s (route_request o)). generalize (logged s (route_request o)).
  intros s1. clear Hiter.
  induction Hpre as [|y pre (w & Hw & Hf) _ IH]; simpl.
  - unfold bind, lift. now rewrite Hx.
  - unfold bind, lift. rewrite Hw, Hf. exact IH.
Qed.

End carrier_runs.

Section pipeline_runs.

(** X13: a stage that raises ends the run of the pipeline: when the stages
    before it return and it raises [e], [respond] raises [e], the store is
    the one that stage left and the stages after it are not called. *)
Theorem pipeline_fails_fast before stage after l s r1 s1 e s2 :
  ResponderPipeline.respond_loop before l None s = (Ok r1, s1) ->
  stage l s1 = (Raise e, s2) ->
  ResponderPipeline.respond (ResponderPipeline.mk (before ++ stage :: after)) l s
  = (Raise e, s2).
Proof.
  intros Hbefore Hstage.
  unfold ResponderPipeline.respond. cbn [ResponderPipeline.responders].
  apply bind_Raise. rewrite respond_loop_app.
  rewrite (bind_Ok _ _ _ _ _ Hbefore). simpl.
  now apply bind_Raise.
Qed.

Lemma respond_loop_bound stages l : forall x s r s',
  ResponderPipeline.respond_loop stages l (Some x) s = (Ok r, s') ->
  exists y, r = Some y.
Proof.
  induction stages as [|stage stages IH]; intros x s r s'; simpl.
  - intros [= <- _]. now exists x.
  - intros (y & s1 & _ & Hrest)%bind_inv_Ok. eapply IH, Hrest.
Qed.

Lemma respond_loop_nonempty stages l r s :
  stages <> [] ->
  ResponderPipeline.respond_loop stages l r s
  = (x <- ResponderPipeline.respond (ResponderPipeline.mk stages) l ;;
     ret (Some x)) s.
Proof.
  destruct stages as [|stage stages]; [congruence|]. intros _.
  unfold ResponderPipeline.respond. cbn [ResponderPipeline.responders].
  simpl. unfold bind.
  destruct (stage l s) as [[x|e] s1]; [|reflexivity].
  destruct (ResponderPipeline.respond_loop stages l (Some x) s1)
    as [[r'|e] s2] eqn:E; [|reflexivity].
  apply respond_loop_bound in E as [y ->]. reflexivity.
Qed.

(** X14: a pipeline is a stage: used as a stage of another pipeline, a
    pipeline with at least one stage behaves as its own stages put in its
    place, errors included; and a pipeline of one stage behaves as that
    stage. *)
Theorem pipeline_nested before inner after l s :
  inner <> [] ->
  ResponderPipeline.respond
    (ResponderPipeline.mk
       (before ++ ResponderPipeline.respond (ResponderPipeline.mk inner) :: after))
    l s
  = ResponderPipeline.respond
      (ResponderPipeline.mk (before ++ inner ++ after)) l s /\
  (forall stage,
      ResponderPipeline.respond (ResponderPipeline.mk [stage]) l s = stage l s).
Proof.
  intros Hne. split.
  - assert (Hloop : forall r,
      ResponderPipeline.respond_loop
        (before ++ ResponderPipeline.respond (ResponderPipeline.mk inner) :: after)
        l r s
      = ResponderPipeline.respond_loop (before ++ inner ++ after) l r s).
    { intros r. rewrite !respond_loop_app. unfold bind.
      destruct (ResponderPipeline.respond_loop before l r s) as [[r1|e] s1];
        [|reflexivity].
      rewrite respond_loop_app. simpl ResponderPipeline.respond_loop.
      unfold bind. rewrite (respond_loop_nonempty inner l r1 s1 Hne).
      unfold bind, ret.
      destruct (ResponderPipeline.respond (ResponderPipeline.mk inner) l s1)
        as [[x|e] s2]; reflexivity. }
    unfold ResponderPipeline.respond at 1 3. cbn [ResponderPipeline.responders].
    unfold bind. now rewrite Hloop.
  - intros stage. unfold ResponderPipeline.respond. simpl. unfold bind.
    destruct (stage l s) as [[x|e] s1]; reflexivity.
Qed.

Lemma respond_loop_same stages l s :
  stages <> [] ->
  Forall (fun stage : Responder => stage l s = (Ok l, s)) stages ->
  forall r, ResponderPipeline.respond_loop stages l r s = (Ok (Some l), s).
Proof.
  intros Hne Hall. induction Hall as [|stage stages Hstage Hall IH]; [congruence|].
  intros r. simpl. rewrite (bind_Ok _ _ _ _ _ Hstage).
  destruct stages as [|stage' stages']; [reflexivity|]. now apply IH.
Qed.

(** X15: on an empty batch the validation stage, the carrier-route stage
    and a pipeline of such stages return the list at once: no request is
    made and the store is as it was. *)
Theorem batch_stage_empty_batch `{Env} stage l s :
  batch_stage stage ->
  lists s !! l = Some [] ->
  stage l s = (Ok l, s).
Proof.
  intros Hstage Hl.
  assert (Hone : forall stage', lookup_stage stage' -> stage' l s = (Ok l, s)).
  { intros stage' [c|c].
    - now rewrite (validation_respond_steps _ _ _ _ Hl).
    - now rewrite (carrier_respond_steps _ _ _ _ Hl). }
  destruct Hstage as [stage Hstage|stages Hne Hall]; [now apply Hone|].
  unfold ResponderPipeline.respond. cbn [ResponderPipeline.responders].
  rewrite (bind_Ok _ _ s (Some l) s).
  - reflexivity.
  - apply respond_loop_same; [exact Hne|].
    eapply Forall_impl; [exact Hall|]. exact Hone.
Qed.

End pipeline_runs.

(** * The application factory *)

Section web.

(** X16: the handler that [create_app] registers for code 500 is the second
    [server_error] of the module: it answers every error with the page
    [error/504.html] and the status 504, whether or not the instance folder
    could be made, and no registered handler renders [error/500.html]. *)
Theorem server_error_handler_is_504 secret (folder_exists : bool) :
  exists app,
    Web.create_app Web.module_globals secret
      (if folder_exists then Some Web.OSError else None) = inr app /\
    (exists failed,
        Web.error_handlers app !! 500 = Some failed /\
        forall e, failed e
                  = (Web.render_template "error/504.html" [("error", e)], 504)) /\
    (forall code handler e,
        Web.error_handlers app !! code = Some handler ->
        Web.template (fst (handler e)) <> "error/500.html").
Proof.
  assert (Hnf : Web.module_globals !! "page_not_found" = Some Web.page_not_found).
  { unfold Web.module_globals.
    rewrite !lookup_insert_ne by discriminate. apply lookup_insert_eq. }
  assert (Hse : Web.module_globals !! "server_error" = Some Web.server_error').
  { unfold Web.module_globals. apply lookup_insert_eq. }
  exists {| Web.config :=
              [("MAX_CONTENT_LENGTH", PInt (1000 * 1000 * 1000));
               ("UPLOAD_FOLDER", PStr "web/files");
               ("EXPORT_FILE", PStr "files/export.xlsx");
               ("SECRET_KEY", PStr secret)];
            Web.blueprints := ["file_upload"; "report"];
            Web.error_handlers :=
              <[500 := Web.server_error']> (<[404 := Web.page_not_found]> ∅) |}.
  split; [|split].
  - unfold Web.create_app. rewrite Hnf, Hse. now destruct folder_exists.
  - exists Web.server_error'. split; [apply lookup_insert_eq|reflexivity].
  - intros code handler e. cbn [Web.error_handlers].
    destruct (decide (code = 500)) as [->|H500].
    + rewrite lookup_insert_eq. intros [= <-]. discriminate.
    + rewrite lookup_insert_ne by congruence.
      destruct (decide (code = 404)) as [->|H404].
      * rewrite lookup_insert_eq. intros [= <-]. discriminate.
      * rewrite lookup_insert_ne by congruence. now rewrite lookup_empty.
Qed.

End web.

(** * The further properties on the sample data *)

Section further_samples.

#[local] Existing Instance sample_env.

Lemma validation_requests_sample :
  log (snd (AddressValidationResponder.respond (scripted confirming_script) 0
              two_addresses))
  = [lookup_request main_st; lookup_request elm_st].
Proof.
  apply (validation_requests (scripted confirming_script) 0 two_addresses 0
           (snd (AddressValidationResponder.respond (scripted confirming_script) 0
                   two_addresses))
           [0; 1] [main_st; elm_st]).
  - reflexivity.
  - repeat constructor.
  - vm_compute. reflexivity.
Defined.

Lemma validation_only_changes_its_list_sample :
  only_list_changed 0 two_addresses
    (snd (AddressValidationResponder.respond (scripted failing_script) 0
            two_addresses)).
Proof.
  apply (validation_only_changes_its_list (scripted failing_script) 0
           two_addresses (Raise (KeyError (PStr "candidates")))
           (snd (AddressValidationResponder.respond (scripted failing_script) 0
                   two_addresses))
           [0; 1]).
  - reflexivity.
  - vm_compute. reflexivity.
Defined.

Lemma validation_fails_fast_sample :
  AddressValidationResponder.respond (scripted failing_script) 0 two_addresses
  = (Raise (KeyError (PStr "candidates")),
     snd (AddressValidationResponder.respond_step (scripted failing_script) 0 1
            (snd (AddressValidationResponder.respond_step
                    (scripted failing_script) 0 0 two_addresses)))).
Proof.
  apply (validation_fails_fast (scripted failing_script) 0 two_addresses [0; 1] 1
           (snd (AddressValidationResponder.respond_step
                   (scripted failing_script) 0 0 two_addresses))).
  - reflexivity.
  - simpl. lia.
  - vm_compute. reflexivity.
  - vm_compute. reflexivity.
Defined.

Lemma validation_lookup_error_sample :
  AddressValidationResponder.respond_step (scripted []) 0 0 (one_address main_st)
  = (Raise (ApiError "timed out"),
     logged (one_address main_st) (lookup_request main_st)).
Proof.
  apply (validation_lookup_error (scripted []) (one_address main_st) 0 0 0 main_st);
    reflexivity.
Defined.

Lemma validation_malformed_answer_sample :
  AddressValidationResponder.respond_step (scripted [Ok (PDict [])]) 0 0
    (one_address main_st)
  = (Raise (KeyError (PStr "candidates")),
     logged (one_address main_st) (lookup_request main_st)).
Proof.
  apply (validation_malformed_answer (scripted [Ok (PDict [])])
           (one_address main_st) 0 0 0 main_st (PDict [])).
  - reflexivity.
  - reflexivity.
  - now constructor.
Defined.

Lemma validation_falsy_candidate_sample :
  AddressValidationResponder.respond_step
    (scripted [Ok empty_candidate_answer]) 0 0 (one_address main_st)
  = (Ok tt, logged (one_address main_st) (lookup_request main_st)).
Proof.
  apply (validation_falsy_candidate (scripted [Ok empty_candidate_answer])
           (one_address main_st) 0 0 0 main_st empty_candidate_answer
           (PList [PDict []]) (PDict []));
    reflexivity.
Defined.

Lemma validation_missing_attribute_sample :
  AddressValidationResponder.respond_step
    (scripted [Ok (candidates_answer [PDict short_attributes])]) 0 0
    (one_address main_st)
  = (Raise (KeyError (PStr "StType")),
     logged (one_address main_st) (lookup_request main_st)).
Proof.
  apply (validation_missing_attribute
           (scripted [Ok (candidates_answer [PDict short_attributes])])
           (one_address main_st) 0 0 0 main_st
           (candidates_answer [PDict short_attributes])
           (PList [PDict [("attributes", PDict short_attributes)]])
           (PDict [("attributes", PDict short_attributes)])
           short_attributes ["AddNum"; "StName"] "StType"
           ["SubAddr"; "City"; "RegionAbbr"; "Postal"]);
    try reflexivity.
  repeat constructor; now eexists.
Defined.

Lemma carrier_only_changes_routes_sample :
  only_routes_changed [0; 1] two_addresses
    (snd (CarrierRouteRetreiverResponder.respond (scripted one_route_script) 0
            two_addresses)).
Proof.
  apply (carrier_only_changes_routes (scripted one_route_script) 0 two_addresses
           (Raise (ApiError "timed out"))
           (snd (CarrierRouteRetreiverResponder.respond
                   (scripted one_route_script) 0 two_addresses))
           [0; 1]).
  - reflexivity.
  - vm_compute. reflexivity.
Defined.

Lemma carrier_requests_sample :
  log (snd (CarrierRouteRetreiverResponder.respond
              (scripted [Ok (routes_answer []); Ok (routes_answer [PStr "C002"])])
              0 two_addresses))
  = [route_request main_st; route_request elm_st].
Proof.
  apply (carrier_requests
           (scripted [Ok (routes_answer []); Ok (routes_answer [PStr "C002"])])
           0 two_addresses 0
           (snd (CarrierRouteRetreiverResponder.respond
                   (scripted [Ok (routes_answer []);
                              Ok (routes_answer [PStr "C002"])])
                   0 two_addresses))
           [0; 1] [main_st; elm_st]).
  - reflexivity.
  - repeat constructor.
  - vm_compute. reflexivity.
Defined.

Lemma carrier_abort_sample :
  exists k a sk,
    [0; 1] !! k = Some a /\
    for_each (take k [0; 1])
      (CarrierRouteRetreiverResponder.respond_step (scripted one_route_script))
      two_addresses = (Ok tt, sk) /\
    log (snd (CarrierRouteRetreiverResponder.respond (scripted one_route_script) 0
                two_addresses))
    = [] ++ map route_request (take (S k) [main_st; elm_st]).
Proof.
  destruct (carrier_abort (scripted one_route_script) 0 two_addresses [0; 1]
              [main_st; elm_st] (ApiError "timed out")
              (snd (CarrierRouteRetreiverResponder.respond
                      (scripted one_route_script) 0 two_addresses)))
    as (k & a & sk & Hk & Hpre & _ & Hlog).
  - reflexivity.
  - repeat constructor.
  - vm_compute. reflexivity.
  - exists k, a, sk. repeat split; [exact Hk|exact Hpre|exact Hlog].
Defined.

Lemma carrier_malformed_answer_sample :
  CarrierRouteRetreiverResponder.respond_step (scripted [Ok (PDict [])]) 0
    (one_address main_st)
  = (Raise (KeyError (PStr "addressList")),
     logged (one_address main_st) (route_request main_st)).
Proof.
  apply (carrier_malformed_answer (scripted [Ok (PDict [])])
           (one_address main_st) 0 main_st).
  - reflexivity.
  - apply (route_answer_without_list []). reflexivity.
Defined.

Lemma carrier_entry_without_route_sample :
  CarrierRouteRetreiverResponder.respond_step
    (scripted [Ok routeless_entry_answer]) 0 (one_address main_st)
  = (Raise (KeyError (PStr "carrierRoute")),
     logged (one_address main_st) (route_request main_st)).
Proof.
  apply (carrier_entry_without_route (scripted [Ok routeless_entry_answer])
           (one_address main_st) 0 main_st routeless_entry_answer
           (PList [PDict [("carrierRoute", PStr "")]; PDict []])
           [PDict [("carrierRoute", PStr "")]] (PDict []) []).
  - reflexivity.
  - reflexivity.
  - reflexivity.
  - reflexivity.
  - constructor; [|constructor]. exists (PStr ""). split; reflexivity.
  - reflexivity.
Defined.

Lemma pipeline_fails_fast_sample :
  ResponderPipeline.respond
    (ResponderPipeline.mk
       ([AddressValidationResponder.respond (scripted confirming_script)]
        ++ CarrierRouteRetreiverResponder.respond (scripted confirming_script)
        :: [marking "report"]))
    0 two_addresses
  = (Raise (ApiError "timed out"),
     snd (CarrierRouteRetreiverResponder.respond (scripted confirming_script) 0
            (snd (AddressValidationResponder.respond
                    (scripted confirming_script) 0 two_addresses)))).
Proof.
  apply (pipeline_fails_fast
           [AddressValidationResponder.respond (scripted confirming_script)]
           (CarrierRouteRetreiverResponder.respond (scripted confirming_script))
           [marking "report"] 0 two_addresses (Some 0)
           (snd (AddressValidationResponder.respond
                   (scripted confirming_script) 0 two_addresses))).
  - vm_compute. reflexivity.
  - vm_compute. reflexivity.
Defined.

Lemma pipeline_nested_sample :
  ResponderPipeline.respond
    (ResponderPipeline.mk
       ([marking "A"]
        ++ ResponderPipeline.respond
             (ResponderPipeline.mk [marking "B"; marking "C"])
        :: [marking "D"]))
    0 no_address
  = ResponderPipeline.respond
      (ResponderPipeline.mk
         ([marking "A"] ++ [marking "B"; marking "C"] ++ [marking "D"]))
      0 no_address.
Proof.
  apply (pipeline_nested [marking "A"] [marking "B"; marking "C"] [marking "D"]
           0 no_address).
  discriminate.
Defined.

Lemma batch_stage_empty_batch_sample :
  ResponderPipeline.respond (ResponderPipeline.mk two_stages) 0 no_address
  = (Ok 0, no_address).
Proof.
  apply (batch_stage_empty_batch
           (ResponderPipeline.respond (ResponderPipeline.mk two_stages)) 0
           no_address).
  - apply pipeline_stage; [discriminate|]. repeat constructor.
  - reflexivity.
Defined.

End further_samples.

(** * The stages on a whole batch *)

Section validation_stage.
Context `{Env}.
Variable c : ApiClient.

Lemma objects_lookup s batch objs idx a o :
  objects s batch objs -> batch !! idx = Some a -> objs !! idx = Some o ->
  addrs s !! a = Some o.
Proof.
  intros Hobjs Ha Ho. exact (Forall2_lookup_lr _ _ _ _ _ _ Hobjs Ha Ho).
Qed.

(** A run of the stage that returns reaches the entry at [idx] with the
    input's object there and the requests of the entries before it in the
    log, runs the step of that entry, and returns what the step left at
    [idx]; the objects of the input are not changed. *)
Lemma validation_reaches_entry l s l' s' batch objs idx a o :
  lists s !! l = Some batch ->
  objects s batch objs ->
  AddressValidationResponder.respond c l s = (Ok l', s') ->
  batch !! idx = Some a ->
  objs !! idx = Some o ->
  l' = l /\
  exists s1 s2,
    entry s1 l idx = Some (a, o) /\
    log s1 = lookups_before (log s) objs idx /\
    AddressValidationResponder.respond_step c l idx s1 = (Ok tt, s2) /\
    (forall a' o', entry s2 l idx = Some (a', o') -> entry s' l idx = Some (a', o')) /\
    (forall b ob, addrs s !! b = Some ob -> addrs s' !! b = Some ob) /\
    (forall b, addrs s1 !! b = None -> addrs s !! b = None).
Proof.
  intros Hl Hobjs Hrun Ha Ho.
  pose proof (objects_lookup _ _ _ _ _ _ Hobjs Ha Ho) as Hao.
  assert (Hidx : idx < length batch) by (eapply lookup_lt_Some, Ha).
  assert (l' = l) as ->.
  { eapply validation_returns_its_input, Hrun. }
  split; [reflexivity|].
  destruct (validation_respond_entry _ _ _ _ _ _ _ Hl Hidx Hrun)
    as (s1 & s2 & Hpre & Hstep & Hbefore & Hafter).
  exists s1, s2. repeat split.
  - apply Hbefore. unfold entry. now rewrite Hl, Ha, Hao.
  - apply (validation_loop_requests c l idx 0 s s1 batch (take idx objs) Hl);
      [|simpl; lia|exact Hpre].
    rewrite drop_0. now apply Forall2_take.
  - exact Hstep.
  - exact Hafter.
  - rewrite (validation_respond_steps _ _ _ _ Hl) in Hrun.
    apply bind_inv_Ok in Hrun as ([] & s3 & Hloop & [= <-]).
    destruct (validation_loop_frame c _ _ _ _ _ _ Hl Hloop) as ([extra ->] & _).
    intros b ob Hb. now apply lookup_app_l_Some.
  - destruct (validation_loop_frame c _ _ _ _ _ _ Hl Hpre) as ([extra ->] & _).
    intros b Hb. apply lookup_ge_None. apply lookup_ge_None in Hb.
    rewrite length_app in Hb. lia.
Qed.

(** C5: in a run of the validation stage that returns, an entry whose
    lookup answers with zero candidates is kept: the list the stage returns
    holds at that index the object the input had there, with every field as
    it was, so the core fields of the output entry are those of the input
    entry. *)
Theorem validation_zero_candidates l s l' s' batch objs idx a o resp candidates :
  lists s !! l = Some batch ->
  objects s batch objs ->
  AddressValidationResponder.respond c l s = (Ok l', s') ->
  batch !! idx = Some a ->
  objs !! idx = Some o ->
  client_get c (lookups_before (log s) objs idx) (lookup_request o) = Ok resp ->
  getitem resp "candidates" = Ok candidates ->
  py_len candidates = Ok 0 ->
  l' = l /\
  entry s' l' idx = Some (a, o) /\
  (forall a' o', entry s' l' idx = Some (a', o') ->
                 Address.core o' = Address.core o).
Proof.
  intros Hl Hobjs Hrun Ha Ho Hget Hcands Hlen.
  destruct (validation_reaches_entry _ _ _ _ _ _ _ _ _ Hl Hobjs Hrun Ha Ho)
    as (-> & s1 & s2 & Hentry & Hlog & Hstep & Hafter & _).
  rewrite <- Hlog in Hget.
  destruct (validation_zero_candidates_step c _ _ _ _ _ _ _ Hentry Hget Hcands Hlen)
    as (s2' & Hstep' & Hkept & _).
  assert (s2' = s2) as -> by congruence.
  assert (Hout : entry s' l idx = Some (a, o)) by now apply Hafter.
  repeat split; [exact Hout|].
  intros a' o' Hout'. rewrite Hout in Hout'. now injection Hout' as <- <-.
Qed.

(** C6: in a run of the validation stage that returns, an entry for which
    the address built from the first candidate equals it on the core
    fields is kept: the list the stage returns holds at that index the
    object the input had there, unchanged in every field, its carrier route
    included. *)
Theorem validation_keeps_equal_entry l s l' s' batch objs idx a o resp
    candidates cand b :
  lists s !! l = Some batch ->
  objects s batch objs ->
  AddressValidationResponder.respond c l s = (Ok l', s') ->
  batch !! idx = Some a ->
  objs !! idx = Some o ->
  client_get c (lookups_before (log s) objs idx) (lookup_request o) = Ok resp ->
  getitem resp "candidates" = Ok candidates ->
  getitem0 candidates = Ok cand ->
  AddressValidationResponder.candidate cand = Ok b ->
  AddressBuilder.incomplete b = false ->
  Address.eqb o (AddressBuilder.built b) = true ->
  l' = l /\
  entry s' l' idx = Some (a, o) /\
  (forall o', addrs s' !! a = Some o' ->
              Address.carrier_route o' = Address.carrier_route o).
Proof.
  intros Hl Hobjs Hrun Ha Ho Hget Hcands Hfirst Hcand Hinc Heq.
  destruct (validation_reaches_entry _ _ _ _ _ _ _ _ _ Hl Hobjs Hrun Ha Ho)
    as (-> & s1 & s2 & Hentry & Hlog & Hstep & Hafter & Hsame & _).
  rewrite <- Hlog in Hget.
  destruct (validation_keeps_equal_entry_step c _ _ _ _ _ _ _ _ _
              Hentry Hget Hcands Hfirst Hcand Hinc Heq)
    as (s2' & Hstep' & Hkept & _).
  assert (s2' = s2) as -> by congruence.
  repeat split; [now apply Hafter|].
  intros o' Ho'. pose proof (objects_lookup _ _ _ _ _ _ Hobjs Ha Ho) as Hao.
  apply Hsame in Hao. congruence.
Qed.

(** C4: in a run of the validation stage that returns, an entry whose first
    candidate exists and gives an address (street number AddNum; street
    name StName, a space, StType; apartment number SubAddr; City; state
    RegionAbbr; zip Postal) that differs from it on the core fields is
    replaced as a whole: the list the stage returns holds at that index an
    object that did not exist when the stage was called, with the
    candidate's fields and no carrier route; the object the input had there
    is not changed. *)
Theorem validation_replaces_entry l s l' s' batch objs idx a o resp candidates
    cand attrs add_num st_name st_type sub_addr city region postal :
  let derived :=
    Address.mk add_num (PStr (py_str st_name +:+ " " +:+ py_str st_type))
      sub_addr city region postal PNone in
  lists s !! l = Some batch ->
  objects s batch objs ->
  AddressValidationResponder.respond c l s = (Ok l', s') ->
  batch !! idx = Some a ->
  objs !! idx = Some o ->
  client_get c (lookups_before (log s) objs idx) (lookup_request o) = Ok resp ->
  getitem resp "candidates" = Ok candidates ->
  getitem0 candidates = Ok cand ->
  getitem cand "attributes" = Ok attrs ->
  getitem attrs "AddNum" = Ok add_num ->
  getitem attrs "StName" = Ok st_name ->
  getitem attrs "StType" = Ok st_type ->
  getitem attrs "SubAddr" = Ok sub_addr ->
  getitem attrs "City" = Ok city ->
  getitem attrs "RegionAbbr" = Ok region ->
  getitem attrs "Postal" = Ok postal ->
  AddressBuilder.incomplete
    (AddressBuilder.mk (Address.street_number derived)
       (Address.street_name derived) sub_addr city region postal) = false ->
  Address.eqb o derived = false ->
  l' = l /\
  exists a',
    entry s' l' idx = Some (a', derived) /\
    a' <> a /\ addrs s !! a' = None /\
    addrs s' !! a = Some o.
Proof.
  intros derived Hl Hobjs Hrun Ha Ho Hget Hcands Hfirst
    Hattrs Hnum Hname Htype Hsub Hcity Hregion Hpostal Hinc Hneq.
  destruct (validation_reaches_entry _ _ _ _ _ _ _ _ _ Hl Hobjs Hrun Ha Ho)
    as (-> & s1 & s2 & Hentry & Hlog & Hstep & Hafter & Hsame & Hnew).
  rewrite <- Hlog in Hget.
  destruct (validation_replaces_entry_step c _ _ _ _ _ _ _ _ _ _ _ _ _ _ _ _
              Hentry Hget Hcands Hfirst Hattrs Hnum Hname Htype Hsub Hcity
              Hregion Hpostal Hinc Hneq)
    as (s2' & a' & Hstep' & Hrepl & Hne & Hfresh & _).
  assert (s2' = s2) as -> by congruence.
  split; [reflexivity|]. exists a'. repeat split.
  - now apply Hafter.
  - exact Hne.
  - now apply Hnew.
  - apply Hsame. exact (objects_lookup _ _ _ _ _ _ Hobjs Ha Ho).
Qed.

End validation_stage.

Section carrier_stage.
Context `{Env}.
Variable c : ApiClient.

Lemma carrier_loop_total batch : forall s objs found,
  objects_up_to_route s batch objs ->
  length found = length batch ->
  (forall k o f,
      objs !! k = Some o -> found !! k = Some f ->
      route_found c (routes_before (log s) objs k) o f) ->
  exists s',
    for_each batch (CarrierRouteRetreiverResponder.respond_step c) s = (Ok tt, s') /\
    forall k a o f,
      batch !! k = Some a -> objs !! k = Some o -> found !! k = Some f ->
      a ∉ drop (S k) batch ->
      match f with
      | Some v =>
          exists o',
            addrs s' !! a = Some o' /\
            Address.carrier_route o' = v /\
            Address.core o' = Address.core o
      | None =>
          forall o0, addrs s !! a = Some o0 -> a ∉ take k batch ->
                     addrs s' !! a = Some o0
      end.
Proof.
  induction batch as [|a0 batch IH]; intros s objs found Hobjs Hlen Hanswers.
  - exists s. split; [reflexivity|]. intros k a o f Ha. discriminate.
  - apply Forall2_cons_inv_l in Hobjs as (o0 & objs' & (ox & Hox & Hcore) & Hobjs' & ->).
    destruct found as [|f0 found']; [discriminate|].
    injection Hlen as Hlen.
    destruct (Hanswers 0 o0 f0 eq_refl eq_refl)
      as (resp & al & items & Hpost & Hal & Hitems & Hfirst).
    unfold routes_before in Hpost. simpl in Hpost. rewrite app_nil_r in Hpost.
    rewrite <- (route_request_core _ _ Hcore) in Hpost.
    destruct (carrier_route_first_truthy_step c _ _ _ _ _ _ Hox Hpost Hal Hitems)
      as [Hsome Hnone].
    assert (exists s1,
      CarrierRouteRetreiverResponder.respond_step c a0 s = (Ok tt, s1) /\
      match f0 with
      | Some v => addrs s1 !! a0 = Some (Address.set_carrier_route ox v)
      | None => addrs s1 = addrs s
      end) as (s1 & Hstep & Hhead).
    { inversion Hfirst as [pre e post v Hpre He Hv Eitems Ef|items' Hall Eitems Ef];
        subst.
      - destruct (Hsome _ _ _ _ eq_refl Hpre He Hv) as (s1 & Hs1 & _ & Hset & _).
        now exists s1.
      - destruct (Hnone Hall) as (s1 & Hs1 & Hsame & _). now exists s1. }
    destruct (carrier_step_frame _ _ _ _ _ Hstep) as [Hframe Hlog].
    specialize (Hlog _ Hox).
    assert (Hrest : exists s',
      for_each batch (CarrierRouteRetreiverResponder.respond_step c) s1 = (Ok tt, s') /\
      forall k a o f,
        batch !! k = Some a -> objs' !! k = Some o -> found' !! k = Some f ->
        a ∉ drop (S k) batch ->
        match f with
        | Some v =>
            exists o',
              addrs s' !! a = Some o' /\
              Address.carrier_route o' = v /\
              Address.core o' = Address.core o
        | None =>
            forall o1, addrs s1 !! a = Some o1 -> a ∉ take k batch ->
                       addrs s' !! a = Some o1
        end).
    { apply IH; [eapply objects_up_to_route_changed; eauto|exact Hlen|].
      intros k o f Ho Hf. specialize (Hanswers (S k) o f Ho Hf).
      unfold routes_before in *. simpl in Hanswers.
      rewrite Hlog, (route_request_core _ _ Hcore), <- app_assoc. exact Hanswers. }
    destruct Hrest as (s' & Hloop & Hentries).
    exists s'. split.
    { simpl. now rewrite (bind_Ok _ _ _ _ _ Hstep). }
    pose proof (carrier_loop_frame c batch batch s1 _ s' (reflexivity _) Hloop)
      as (_ & _ & Hkeep).
    intros [|k] a o f Ha Ho Hf Hlater; simpl in Ha, Ho, Hf, Hlater.
    + injection Ha as <-. injection Ho as <-. injection Hf as <-.
      rewrite drop_0 in Hlater. destruct f0 as [v|].
      * destruct (Hkeep _ _ Hhead) as (o' & Ho' & _ & Hsame).
        rewrite (Hsame Hlater) in Ho'.
        exists (Address.set_carrier_route ox v). repeat split; [exact Ho'|].
        rewrite <- Hcore. reflexivity.
      * intros o1 Ho1 _. rewrite <- Hhead in Ho1.
        destruct (Hkeep _ _ Ho1) as (o' & Ho' & _ & Hsame).
        now rewrite (Hsame Hlater) in Ho'.
    + specialize (Hentries k a o f Ha Ho Hf Hlater). destruct f as [v|].
      * exact Hentries.
      * intros o1 Ho1 Hearlier. apply Hentries.
        -- destruct Hframe as (_ & _ & Hone).
           destruct (Hone _ _ Ho1) as (o' & Ho' & _ & Hsame).
           rewrite Hsame in Ho'; [exact Ho'|].
           intros ->%list_elem_of_singleton. apply Hearlier. now left.
        -- intros Hin. apply Hearlier. now right.
Qed.

(** C3: when every route lookup of a run of the carrier-route stage is
    answered with a list of entries, the stage returns, and for an address
    of the batch (one that does not come again later in the batch) the
    carrier route is then the route of the first entry of its answer whose
    route is truthy, whatever the entries after that one are, its core
    fields being as they were; when no entry of its answer has a truthy
    route the address, its carrier route included, is as it was when the
    stage was called. *)
Theorem carrier_route_first_truthy l s batch objs found :
  lists s !! l = Some batch ->
  objects s batch objs ->
  length found = length batch ->
  (forall k o f,
      objs !! k = Some o -> found !! k = Some f ->
      route_found c (routes_before (log s) objs k) o f) ->
  exists s',
    CarrierRouteRetreiverResponder.respond c l s = (Ok l, s') /\
    forall k a o f,
      batch !! k = Some a -> objs !! k = Some o -> found !! k = Some f ->
      a ∉ drop (S k) batch ->
      match f with
      | Some v =>
          exists o',
            addrs s' !! a = Some o' /\
            Address.carrier_route o' = v /\
            Address.core o' = Address.core o
      | None => a ∉ take k batch -> addrs s' !! a = Some o
      end.
Proof.
  intros Hl Hobjs Hlen Hanswers.
  destruct (carrier_loop_total batch s objs found
              (objects_up_to_route_exact _ _ _ Hobjs) Hlen Hanswers)
    as (s' & Hloop & Hentries).
  exists s'. split.
  - rewrite (carrier_respond_steps _ _ _ _ Hl).
    now rewrite (bind_Ok _ _ _ _ _ Hloop).
  - intros k a o f Ha Ho Hf Hlater.
    specialize (Hentries k a o f Ha Ho Hf Hlater). destruct f as [v|].
    + exact Hentries.
    + apply Hentries. exact (Forall2_lookup_lr _ _ _ _ _ _ Hobjs Ha Ho).
Qed.

End carrier_stage.

Section batch_positions.
Context `{Env}.

Lemma validation_step_entry c l idx s u s1 batch a o :
  lists s !! l = Some batch ->
  batch !! idx = Some a ->
  addrs s !! a = Some o ->
  AddressValidationResponder.respond_step c l idx s = (Ok u, s1) ->
  exists a1 o1,
    lists s1 !! l = Some (<[idx := a1]> batch) /\
    addrs s1 !! a1 = Some o1 /\
    validated c (log s) o o1.
Proof.
  intros Hl Hi Ha.
  assert (Hkept : forall s2,
    lists s2 = lists s -> (exists extra, addrs s2 = addrs s ++ extra) ->
    exists a1 o1,
      lists s2 !! l = Some (<[idx := a1]> batch) /\
      addrs s2 !! a1 = Some o1 /\ validated c (log s) o o1).
  { intros s2 Hlists [extra Haddrs]. exists a, o.
    rewrite Hlists, Haddrs, (list_insert_id _ _ _ Hi).
    repeat split; [exact Hl|now apply lookup_app_l_Some|now left]. }
  unfold AddressValidationResponder.respond_step, AddressValidationResponder.validate,
    AddressBuilder.build, list_getitem, list_items, list_setitem, load, new_address,
    api_get, call, bind, lift, ret, raise.
  rewrite Hl, Hi, Ha. fold (lookup_request o).
  repeat (cbn [addrs lists log fst snd negb] in *;
          try rewrite (lookup_app_l_Some _ _ _ _ Ha);
          try rewrite list_lookup_middle by reflexivity;
          case_match; simplify_eq).
  all: intros ?; cbn [fst snd negb] in *; simplify_eq.
  all: try (apply Hkept; cbn [addrs lists log];
            [reflexivity|first [now exists []; rewrite app_nil_r|now eexists]]).
  match goal with
  | Ho : (addrs s ++ _) !! a = Some ?x,
    Hb : (addrs s ++ _) !! length (addrs s) = Some ?y,
    He : negb (Address.eqb ?x ?y) = true |- _ =>
      rewrite (lookup_app_l_Some _ _ _ _ Ha) in Ho;
      rewrite list_lookup_middle in Hb by reflexivity;
      simplify_eq; apply negb_true_iff in He
  end.
  eexists (length (addrs s)), _. cbn [addrs lists log]. repeat split.
  - apply list_lookup_insert_eq. eapply lookup_lt_Some; eassumption.
  - now apply list_lookup_middle.
  - right. do 4 eexists. repeat split; eassumption.
Qed.


Lemma objects_extended s s' batch objs :
  (exists extra, addrs s' = addrs s ++ extra) ->
  objects s batch objs -> objects s' batch objs.
Proof.
  intros [extra Haddrs] Hobjs. eapply Forall2_impl; [exact Hobjs|].
  intros a o Ha. cbv beta in Ha. rewrite Haddrs. now apply lookup_app_l_Some.
Qed.

Lemma validation_loop_entries c l k : forall i s s' batch objs,
  lists s !! l = Some batch ->
  objects s (take k (drop i batch)) objs ->
  i + k <= length batch ->
  for_each (seq i k) (AddressValidationResponder.respond_step c l) s = (Ok tt, s') ->
  exists batch' objs',
    lists s' !! l = Some batch' /\
    length batch' = length batch /\
    (forall j, j < i \/ i + k <= j -> batch' !! j = batch !! j) /\
    objects s' (take k (drop i batch')) objs' /\
    (forall j o o',
        objs !! j = Some o -> objs' !! j = Some o' ->
        validated c (lookups_before (log s) objs j) o o').
Proof.
  induction k as [|k IH]; intros i s s' batch objs Hl Hobjs Hlen; simpl.
  - intros [= <-]. exists batch, []. repeat split; auto.
    + constructor.
    + intros j o o' _ Ho'. discriminate.
  - intros (u & s1 & Hstep & Hrest)%bind_inv_Ok.
    destruct (lookup_lt_is_Some_2 batch i) as [a Ha]; [lia|].
    rewrite (drop_S _ _ _ Ha) in Hobjs. simpl in Hobjs.
    apply Forall2_cons_inv_l in Hobjs as (o & objs_t & Ho & Hobjs_t & ->).
    destruct (validation_step_entry _ _ _ _ _ _ _ _ _ Hl Ha Ho Hstep)
      as (a1 & o1 & Hl1 & Ho1 & Hval).
    pose proof (validation_step_request c _ _ _ _ _ _ _ _ Hl Ha Ho Hstep) as Hlog1.
    pose proof (validation_step_frame c _ _ _ _ _ _ Hl Hstep) as (Hext1 & _).
    assert (Hlen1 : length (<[i := a1]> batch) = length batch)
      by apply length_insert.
    destruct (IH (S i) s1 s' _ objs_t Hl1) as
      (batch' & objs_t' & Hl' & Hlen' & Hother & Hobjs' & Hvals);
      [|lia|exact Hrest|].
    { rewrite drop_insert_lt by lia. eapply objects_extended; eauto. }
    pose proof (validation_loop_frame c _ _ _ _ _ _ Hl1 Hrest) as (Hext' & _).
    assert (Hi' : batch' !! i = Some a1).
    { rewrite Hother by lia. apply list_lookup_insert_eq. lia. }
    exists batch', (o1 :: objs_t'). repeat split.
    + exact Hl'.
    + lia.
    + intros j Hj. rewrite Hother by lia. apply list_lookup_insert_ne. lia.
    + rewrite (drop_S _ _ _ Hi'). simpl. constructor; [|exact Hobjs'].
      destruct Hext' as [extra ->]. now apply lookup_app_l_Some.
    + intros [|j] p p' Hp Hp'; simpl in Hp, Hp'.
      * injection Hp as <-. injection Hp' as <-.
        unfold lookups_before. simpl. now rewrite app_nil_r.
      * specialize (Hvals j p p' Hp Hp'). unfold lookups_before in *.
        simpl. rewrite Hlog1, <- app_assoc in Hvals. exact Hvals.
Qed.

Lemma objects_after_routes members s s' batch objs :
  only_routes_changed members s s' ->
  objects s batch objs ->
  exists objs',
    objects s' batch objs' /\
    Forall2 (fun o o' => Address.core o' = Address.core o) objs objs'.
Proof.
  intros (_ & _ & Hsame) Hobjs.
  induction Hobjs as [|a o batch objs Ha _ (objs' & Hobjs' & Hcore)].
  - exists []. split; constructor.
  - destruct (Hsame _ _ Ha) as (o' & Ha' & Hc & _).
    exists (o' :: objs'). split; constructor; assumption.
Qed.

(** One stage: the list it returns, the objects in it and the requests it
    made. *)
Lemma stage_of_entries k l s l' s' batch objs :
  lists s !! l = Some batch ->
  objects s batch objs ->
  stage_of k l s = (Ok l', s') ->
  l' = l /\
  exists batch' objs',
    lists s' !! l = Some batch' /\
    objects s' batch' objs' /\
    length batch' = length batch /\
    stage_entries k (log s) objs objs' /\
    log s' = log s ++ requests_of k objs.
Proof.
  intros Hl Hobjs. pose proof (Forall2_length _ _ _ Hobjs) as Hlen.
  destruct k as [c|c]; simpl; intros Hrun.
  - assert (l' = l) as -> by (eapply validation_returns_its_input, Hrun).
    split; [reflexivity|].
    rewrite (validation_respond_steps _ _ _ _ Hl) in Hrun.
    apply bind_inv_Ok in Hrun as ([] & s1 & Hloop & [= <-]).
    destruct (validation_loop_entries c l (length batch) 0 s s1 batch objs Hl)
      as (batch' & objs' & Hl' & Hlen' & _ & Hobjs' & Hvals);
      [now rewrite drop_0, firstn_all|simpl; lia|exact Hloop|].
    rewrite drop_0, <- Hlen', firstn_all in Hobjs'.
    exists batch', objs'. repeat split; [exact Hl'|exact Hobjs'|exact Hlen'| |exact Hvals|].
    + rewrite <- (Forall2_length _ _ _ Hobjs'). lia.
    + apply (validation_loop_requests c l (length batch) 0 s s1 batch objs Hl);
        [now rewrite drop_0, firstn_all|simpl; lia|exact Hloop].
  - assert (l' = l) as -> by (eapply carrier_returns_its_input, Hrun).
    split; [reflexivity|].
    rewrite (carrier_respond_steps _ _ _ _ Hl) in Hrun.
    apply bind_inv_Ok in Hrun as ([] & s1 & Hloop & [= <-]).
    pose proof (carrier_loop_frame c batch batch s _ s1 (reflexivity _) Hloop)
      as Hframe.
    destruct (objects_after_routes _ _ _ _ _ Hframe Hobjs)
      as (objs' & Hobjs' & Hcore).
    exists batch, objs'. destruct Hframe as (Hlists & _).
    repeat split; [now rewrite Hlists|exact Hobjs'| | |].
    + symmetry. exact (Forall2_length _ _ _ Hcore).
    + intros i o o' Ho Ho'. exact (Forall2_lookup_lr _ _ _ _ _ _ Hcore Ho Ho').
    + apply (carrier_loop_requests c batch s s1 objs); [|exact Hloop].
      now apply objects_up_to_route_exact.
Qed.

Lemma respond_loop_entries l ks : forall s r r' s' batch objs,
  lists s !! l = Some batch ->
  objects s batch objs ->
  ResponderPipeline.respond_loop (map stage_of ks) l r s = (Ok r', s') ->
  exists batch' objs',
    lists s' !! l = Some batch' /\
    objects s' batch' objs' /\
    length batch' = length batch /\
    entries_after ks (log s) objs objs'.
Proof.
  induction ks as [|k ks IH]; intros s r r' s' batch objs Hl Hobjs; simpl.
  - intros [= _ <-]. now exists batch, objs.
  - intros (x & s1 & Hstage & Hrest)%bind_inv_Ok.
    destruct (stage_of_entries _ _ _ _ _ _ _ Hl Hobjs Hstage)
      as (_ & b1 & objs1 & Hl1 & Hobjs1 & Hlen1 & Hentries1 & Hlog1).
    destruct (IH _ _ _ _ _ _ Hl1 Hobjs1 Hrest)
      as (batch' & objs' & Hl' & Hobjs' & Hlen' & Hentries').
    exists batch', objs'. repeat split; [exact Hl'|exact Hobjs'|lia|].
    exists objs1. split; [exact Hentries1|]. now rewrite <- Hlog1.
Qed.

Lemma runs_stages_batch_stage stage ks : runs_stages stage ks -> batch_stage stage.
Proof.
  intros [k|ks' Hne].
  - apply single_stage. destruct k; constructor.
  - apply pipeline_stage.
    + destruct ks'; [congruence|discriminate].
    + apply Forall_fmap, Forall_forall. intros k _. destruct k; constructor.
Qed.

(** C2: the validation stage, the carrier-route stage and a pipeline of such
    stages return the list object they were given, holding a batch of the
    length of the input batch in which index i goes with index i of the
    input: the object there is the object the input had there or an object
    created during the run, and its fields are what the stages, one after
    the other, make of the fields of the input entry at i (the entry
    itself or the candidate of the lookup made for it, by the validation
    stage; the entry with its core fields, by the carrier-route stage). *)
Theorem batch_stage_keeps_positions stage ks l s l' s' batch objs :
  runs_stages stage ks ->
  lists s !! l = Some batch ->
  objects s batch objs ->
  stage l s = (Ok l', s') ->
  l' = l /\
  exists batch' objs',
    lists s' !! l' = Some batch' /\
    objects s' batch' objs' /\
    length batch' = length batch /\
    entries_after ks (log s) objs objs' /\
    forall i a,
      batch !! i = Some a ->
      exists a',
        batch' !! i = Some a' /\
        (a' = a \/ length (addrs s) <= a' < length (addrs s')).
Proof.
  intros Hstage Hl Hobjs Hrun.
  destruct (batch_stage_aligned _ _ _ _ _ _
              (runs_stages_batch_stage _ _ Hstage) Hl Hrun)
    as (-> & b0 & Hb0 & _ & Hpos).
  split; [reflexivity|].
  assert (exists batch' objs',
    lists s' !! l = Some batch' /\ objects s' batch' objs' /\
    length batch' = length batch /\ entries_after ks (log s) objs objs')
    as (batch' & objs' & Hl' & Hobjs' & Hlen' & Hentries).
  { destruct Hstage as [k|ks Hne].
    - destruct (stage_of_entries _ _ _ _ _ _ _ Hl Hobjs Hrun)
        as (_ & batch' & objs' & Hl' & Hobjs' & Hlen' & Hentries & _).
      exists batch', objs'. repeat split; try assumption.
      now exists objs'.
    - unfold ResponderPipeline.respond in Hrun.
      cbn [ResponderPipeline.responders] in Hrun.
      apply bind_inv_Ok in Hrun as (r' & s1 & Hloop & Hret).
      assert (s1 = s') as ->.
      { destruct r'; [now injection Hret as _ <-|discriminate]. }
      eapply respond_loop_entries; eauto. }
  exists batch', objs'. repeat split; try assumption.
  assert (b0 = batch') as -> by congruence. exact Hpos.
Qed.

End batch_positions.

(** * The statements on whole runs, on the sample data *)

Section stage_samples.

#[local] Existing Instance sample_env.

(** The second of two addresses has no candidate and stays. *)
Lemma validation_zero_candidates_sample :
  entry (snd (AddressValidationResponder.respond (scripted confirming_script) 0
                two_addresses)) 0 1
  = Some (1, elm_st).
Proof.
  destruct (validation_zero_candidates (scripted confirming_script) 0
              two_addresses 0
              (snd (AddressValidationResponder.respond
                      (scripted confirming_script) 0 two_addresses))
              [0; 1] [main_st; elm_st] 1 1 elm_st
              (candidates_answer []) (PList []))
    as (_ & Hentry & _).
  - reflexivity.
  - repeat constructor.
  - vm_compute. reflexivity.
  - reflexivity.
  - reflexivity.
  - reflexivity.
  - reflexivity.
  - reflexivity.
  - exact Hentry.
Defined.

(** A candidate equal on the core fields: the routed address stays, with
    its route. *)
Lemma validation_keeps_equal_entry_sample :
  entry (snd (AddressValidationResponder.respond
                (scripted [Ok (candidates_answer [main_st_attributes])]) 0
                (one_address main_st_routed))) 0 0
  = Some (0, main_st_routed).
Proof.
  destruct (validation_keeps_equal_entry
              (scripted [Ok (candidates_answer [main_st_attributes])]) 0
              (one_address main_st_routed) 0
              (snd (AddressValidationResponder.respond
                      (scripted [Ok (candidates_answer [main_st_attributes])]) 0
                      (one_address main_st_routed)))
              [0] [main_st_routed] 0 0 main_st_routed
              (candidates_answer [main_st_attributes])
              (PList [PDict [("attributes", main_st_attributes)]])
              (PDict [("attributes", main_st_attributes)])
              (AddressBuilder.mk (PStr "123") (PStr "Main St") (PStr "")
                 (PStr "Springfield") (PStr "IL") (PStr "62704")))
    as (_ & Hentry & _).
  - reflexivity.
  - repeat constructor.
  - vm_compute. reflexivity.
  - reflexivity.
  - reflexivity.
  - reflexivity.
  - reflexivity.
  - reflexivity.
  - reflexivity.
  - reflexivity.
  - reflexivity.
  - exact Hentry.
Defined.

(** A candidate on another street: the entry becomes a new object with the
    candidate's fields and no carrier route. *)
Lemma validation_replaces_entry_sample :
  exists a',
    entry (snd (AddressValidationResponder.respond
                  (scripted [Ok (candidates_answer [main_ave_attributes])]) 0
                  (one_address main_st_routed))) 0 0
    = Some (a', main_ave) /\
    a' <> 0.
Proof.
  destruct (validation_replaces_entry
              (scripted [Ok (candidates_answer [main_ave_attributes])]) 0
              (one_address main_st_routed) 0
              (snd (AddressValidationResponder.respond
                      (scripted [Ok (candidates_answer [main_ave_attributes])]) 0
                      (one_address main_st_routed)))
              [0] [main_st_routed] 0 0 main_st_routed
              (candidates_answer [main_ave_attributes])
              (PList [PDict [("attributes", main_ave_attributes)]])
              (PDict [("attributes", main_ave_attributes)])
              main_ave_attributes
              (PStr "123") (PStr "Main") (PStr "Ave") (PStr "")
              (PStr "Springfield") (PStr "IL") (PStr "62705"))
    as (_ & a' & Hentry & Hnew & _).
  - reflexivity.
  - repeat constructor.
  - vm_compute. reflexivity.
  - reflexivity.
  - reflexivity.
  - reflexivity.
  - reflexivity.
  - reflexivity.
  - reflexivity.
  - reflexivity.
  - reflexivity.
  - reflexivity.
  - reflexivity.
  - reflexivity.
  - reflexivity.
  - reflexivity.
  - reflexivity.
  - reflexivity.
  - exists a'. split; [exact Hentry|exact Hnew].
Defined.

(** Two addresses: the first gets the route of the second entry of its
    answer, whose third entry is not an object; the second, whose answer
    has no route, stays as it was. *)
Lemma carrier_route_first_truthy_sample :
  exists s',
    CarrierRouteRetreiverResponder.respond (scripted two_route_script) 0
      two_addresses = (Ok 0, s') /\
    (exists o',
        addrs s' !! 0 = Some o' /\
        Address.carrier_route o' = PStr "C001" /\
        Address.core o' = Address.core main_st) /\
    addrs s' !! 1 = Some elm_st.
Proof.
  destruct (carrier_route_first_truthy (scripted two_route_script) 0
              two_addresses [0; 1] [main_st; elm_st]
              [Some (PStr "C001"); None])
    as (s' & Hrun & Hentries).
  - reflexivity.
  - repeat constructor.
  - reflexivity.
  - intros [|[|k]] o f Ho Hf; simpl in Ho, Hf; try discriminate.
    + injection Ho as <-. injection Hf as <-.
      exists routes_then_number,
        (PList [PDict [("carrierRoute", PStr "")];
                PDict [("carrierRoute", PStr "C001")]; PInt 3]),
        [PDict [("carrierRoute", PStr "")];
         PDict [("carrierRoute", PStr "C001")]; PInt 3].
      repeat split.
      apply (first_route_found [PDict [("carrierRoute", PStr "")]]
               (PDict [("carrierRoute", PStr "C001")]) [PInt 3] (PStr "C001")).
      * constructor; [|constructor]. exists (PStr ""). split; reflexivity.
      * reflexivity.
      * reflexivity.
    + injection Ho as <-. injection Hf as <-.
      exists (routes_answer [PStr ""]),
        (PList [PDict [("carrierRoute", PStr "")]]),
        [PDict [("carrierRoute", PStr "")]].
      repeat split. apply first_route_none.
      constructor; [|constructor]. exists (PStr ""). split; reflexivity.
  - exists s'. split; [exact Hrun|]. split.
    + apply (Hentries 0 0 main_st (Some (PStr "C001")));
        [reflexivity..|].
      simpl. intros Hin. apply list_elem_of_singleton in Hin. discriminate.
    + apply (Hentries 1 1 elm_st None); [reflexivity..| |].
      * simpl. apply not_elem_of_nil.
      * simpl. intros Hin. apply list_elem_of_singleton in Hin. discriminate.
Defined.

(** The two stages on two addresses: two entries come back, each made of
    the input entry at its index. *)
Lemma batch_stage_keeps_positions_sample :
  exists batch' objs',
    lists (snd (ResponderPipeline.respond
                  (ResponderPipeline.mk (map stage_of two_lookups)) 0
                  two_addresses)) !! 0 = Some batch' /\
    length batch' = 2 /\
    entries_after two_lookups [] [main_st; elm_st] objs'.
Proof.
  destruct (batch_stage_keeps_positions
              (ResponderPipeline.respond
                 (ResponderPipeline.mk (map stage_of two_lookups)))
              two_lookups 0 two_addresses 0
              (snd (ResponderPipeline.respond
                      (ResponderPipeline.mk (map stage_of two_lookups)) 0
                      two_addresses))
              [0; 1] [main_st; elm_st])
    as (_ & batch' & objs' & Hbatch & _ & Hlen & Hentries & _).
  - apply runs_pipeline. discriminate.
  - reflexivity.
  - repeat constructor.
  - vm_compute. reflexivity.
  - exists batch', objs'. repeat split; [exact Hbatch|exact Hlen|exact Hentries].
Defined.

End stage_samples.
